(** * Verification of the Gemini article service

    A shallow embedding of [services/geminiService.ts] (the prompt builder,
    the response parser, the grounding-source deduplication and the error
    contract of [fetchDigitalEconomyArticles]) together with the properties
    its specification states about it.

    JavaScript strings are sequences of UTF-16 code units; both regular
    expressions of the service are written without the [u] flag, so they
    work on code units as well.  A string is therefore a [list N].

    The Gemini client is a parameter of the model: it answers a request
    or rejects it.  What the module does when it is loaded (the check of
    [API_KEY] and the construction of the client) comes before any call
    of the functions below and is not part of them. *)

From Stdlib Require Import String Ascii.
From Stdlib Require Import List NArith Arith Lia Bool.
Import ListNotations.

Local Open Scope N_scope.

(* ================================================================== *)
(** * JavaScript strings *)
(* ================================================================== *)

Module JsString.

Definition jsstring := list N.

Fixpoint bytes_of_string (s : string) : list N :=
  match s with
  | EmptyString => []
  | String a s' => N_of_ascii a :: bytes_of_string s'
  end.

(** Source literals are written in UTF-8 in this file and decoded to the
    UTF-16 code units a JavaScript engine holds for them. *)
Fixpoint utf16_of_utf8 (l : list N) : jsstring :=
  match l with
  | [] => []
  | b0 :: l1 =>
    if b0 <? 128 then b0 :: utf16_of_utf8 l1
    else if b0 <? 224 then
      match l1 with
      | b1 :: l2 =>
        (N.land b0 31 * 64 + N.land b1 63) :: utf16_of_utf8 l2
      | _ => []
      end
    else if b0 <? 240 then
      match l1 with
      | b1 :: b2 :: l3 =>
        (N.land b0 15 * 4096 + N.land b1 63 * 64 + N.land b2 63)
          :: utf16_of_utf8 l3
      | _ => []
      end
    else
      match l1 with
      | b1 :: b2 :: b3 :: l4 =>
        let cp := N.land b0 7 * 262144 + N.land b1 63 * 4096
                  + N.land b2 63 * 64 + N.land b3 63 in
        let v := cp - 65536 in
        (55296 + v / 1024) :: (56320 + v mod 1024) :: utf16_of_utf8 l4
      | _ => []
      end
  end.

Definition js (s : string) : jsstring := utf16_of_utf8 (bytes_of_string s).

Definition eqb (a b : jsstring) : bool :=
  if list_eq_dec N.eq_dec a b then true else false.

(** A string is truthy exactly when it is not empty. *)
Definition truthy (s : jsstring) : bool :=
  match s with [] => false | _ :: _ => true end.

(** [WhiteSpace] and [LineTerminator] of ECMAScript: what [trim] strips and
    what [\s] matches. *)
Definition is_space (c : N) : bool :=
  ((9 <=? c) && (c <=? 13)) || (c =? 32) || (c =? 160) || (c =? 5760)
  || ((8192 <=? c) && (c <=? 8202)) || (c =? 8232) || (c =? 8233)
  || (c =? 8239) || (c =? 8287) || (c =? 12288) || (c =? 65279).

Fixpoint dropWhile (p : N -> bool) (s : jsstring) : jsstring :=
  match s with
  | [] => []
  | c :: s' => if p c then dropWhile p s' else s
  end.

Fixpoint takeWhile (p : N -> bool) (s : jsstring) : jsstring :=
  match s with
  | [] => []
  | c :: s' => if p c then c :: takeWhile p s' else []
  end.

Definition trimStart (s : jsstring) : jsstring := dropWhile is_space s.
Definition trimEnd (s : jsstring) : jsstring :=
  rev (dropWhile is_space (rev s)).

(** [String.prototype.trim] *)
Definition trim (s : jsstring) : jsstring := trimEnd (trimStart s).

Fixpoint starts_with (p s : jsstring) : bool :=
  match p, s with
  | [], _ => true
  | a :: p', b :: s' => (a =? b) && starts_with p' s'
  | _ :: _, [] => false
  end.

(** [includes]: [p] occurs somewhere in [s]. *)
Fixpoint includes (p s : jsstring) : bool :=
  starts_with p s ||
  match s with
  | [] => false
  | _ :: s' => includes p s'
  end.

End JsString.
Import JsString.

(* ================================================================== *)
(** * Regular expressions: the backtracking matcher *)
(* ================================================================== *)

(** The fragment of ECMAScript regular expressions the service uses:
    literal code units, character classes, sequence, alternation, a
    greedy optional atom, lazy and greedy repetition of a character
    class, capture groups, positive lookahead and the end anchor [$]
    (no [m] flag, so it holds at the end of the input only).  The matcher
    follows the continuation-passing semantics of the language
    definition: alternatives are tried in priority order and the first
    one whose continuation succeeds wins. *)

Module Regex.

Inductive regex : Type :=
| Empty
| Char (c : N)
| Class (p : N -> bool)
| Seq (r1 r2 : regex)
| Alt (r1 r2 : regex)
| Opt (r : regex)
| Star (greedy : bool) (p : N -> bool)
| Group (n : nat) (r : regex)
| Lookahead (r : regex)
| EndOfInput.

Definition captures := list (nat * jsstring).

Record mstate : Type := MState {
  st_pos : nat;            (* index of the next code unit *)
  st_rest : jsstring;      (* the input from that index on *)
  st_caps : captures
}.

Definition cont := mstate -> option mstate.

Fixpoint cap (n : nat) (cs : captures) : option jsstring :=
  match cs with
  | [] => None
  | (m, s) :: cs' => if Nat.eqb n m then Some s else cap n cs'
  end.

Fixpoint star_lazy (p : N -> bool) (pos : nat) (rest : jsstring)
    (cs : captures) (k : cont) : option mstate :=
  match k (MState pos rest cs) with
  | Some y => Some y
  | None =>
    match rest with
    | c :: rest' => if p c then star_lazy p (S pos) rest' cs k else None
    | [] => None
    end
  end.

Fixpoint star_greedy (p : N -> bool) (pos : nat) (rest : jsstring)
    (cs : captures) (k : cont) : option mstate :=
  match rest with
  | c :: rest' =>
    if p c then
      match star_greedy p (S pos) rest' cs k with
      | Some y => Some y
      | None => k (MState pos rest cs)
      end
    else k (MState pos rest cs)
  | [] => k (MState pos rest cs)
  end.

Fixpoint rmatch (r : regex) (x : mstate) (k : cont) : option mstate :=
  match r with
  | Empty => k x
  | Char c =>
    match st_rest x with
    | a :: rest' =>
      if a =? c then k (MState (S (st_pos x)) rest' (st_caps x)) else None
    | [] => None
    end
  | Class p =>
    match st_rest x with
    | a :: rest' =>
      if p a then k (MState (S (st_pos x)) rest' (st_caps x)) else None
    | [] => None
    end
  | Seq r1 r2 => rmatch r1 x (fun y => rmatch r2 y k)
  | Alt r1 r2 =>
    match rmatch r1 x k with
    | Some y => Some y
    | None => rmatch r2 x k
    end
  | Opt r1 =>
    match rmatch r1 x k with
    | Some y => Some y
    | None => k x
    end
  | Star true p => star_greedy p (st_pos x) (st_rest x) (st_caps x) k
  | Star false p => star_lazy p (st_pos x) (st_rest x) (st_caps x) k
  | Group n r1 =>
    rmatch r1 x (fun y =>
      k (MState (st_pos y) (st_rest y)
           ((n, firstn (st_pos y - st_pos x) (st_rest x)) :: st_caps y)))
  | Lookahead r1 =>
    match rmatch r1 x (fun y => Some y) with
    | Some y => k (MState (st_pos x) (st_rest x) (st_caps y))
    | None => None
    end
  | EndOfInput =>
    match st_rest x with
    | [] => k x
    | _ :: _ => None
    end
  end.

(** A literal such as [标题] is the sequence of its code units. *)
Fixpoint lit (s : jsstring) : regex :=
  match s with
  | [] => Empty
  | c :: s' => Seq (Char c) (lit s')
  end.

(** [p+] *)
Definition Plus (p : N -> bool) : regex := Seq (Class p) (Star true p).

(** The result of a successful match: where it starts, where it ends and
    the input left after it, the matched text and the captures. *)
Record match_result : Type := MatchResult {
  m_index : nat;
  m_end : nat;
  m_after : jsstring;
  m_text : jsstring;
  m_caps : captures
}.

(** The search of [RegExp.prototype.exec]: starting at [pos] (the input
    from there on is [rest]) try every index up to and including the
    length of the input, leftmost first. *)
Fixpoint search (r : regex) (pos : nat) (rest : jsstring)
    : option match_result :=
  match rmatch r (MState pos rest []) (fun y => Some y) with
  | Some y =>
    Some (MatchResult pos (st_pos y) (st_rest y)
            (firstn (st_pos y - pos) rest) (st_caps y))
  | None =>
    match rest with
    | [] => None
    | _ :: rest' => search r (S pos) rest'
    end
  end.

End Regex.
Import Regex.

(* ================================================================== *)
(** * Data model ([types.ts]) *)
(* ================================================================== *)

Record Article : Type := mkArticle {
  title : jsstring;
  summary : jsstring;
  source : jsstring
}.

(** [GroundingSource] has a [title] field as well; the record lives in a
    module of its own so that both records keep the field names of
    [types.ts]. *)
Module Grounding.
Record GroundingSource : Type := mkSource {
  uri : jsstring;
  title : jsstring
}.
End Grounding.
Abbreviation GroundingSource := Grounding.GroundingSource.
Abbreviation mkSource := Grounding.mkSource.
Abbreviation uri := Grounding.uri.

Record FilterOptions : Type := mkFilters {
  subTopic : jsstring
}.

Record FetchResult : Type := mkResult {
  articles : list Article;
  sources : list GroundingSource
}.

(* ================================================================== *)
(** * Outcomes of running JavaScript code *)
(* ================================================================== *)

Inductive exn : Type :=
| TypeError                         (* property access on undefined/null *)
| ServiceError (detail : jsstring)  (* anything the Gemini client rejects with *)
| Error (message : jsstring).       (* [new Error(message)] *)

Inductive outcome (A : Type) : Type :=
| Returned (a : A)
| Thrown (e : exn)
| Diverged.                         (* a loop that never ends *)
Arguments Returned {A} a.
Arguments Thrown {A} e.
Arguments Diverged {A}.

(* ================================================================== *)
(** * The response parser *)
(* ================================================================== *)

Module Parser.

Definition label_title : jsstring := js "标题".
Definition label_summary : jsstring := js "摘要".
Definition label_source : jsstring := js "来源".

(** [[：:]] *)
Definition colon (c : N) : bool := (c =? 65306) || (c =? 58).

(** [[\s\S]] *)
Definition any (c : N) : bool := is_space c || negb (is_space c).

(** The negated class of the URL pattern: every code unit except white
    space, the double quote (34), the apostrophe (39), the closing
    parenthesis (41) and the angle brackets (60, 62). *)
Definition url_char (c : N) : bool :=
  negb (is_space c || (c =? 34) || (c =? 39) || (c =? 41)
        || (c =? 60) || (c =? 62)).

Declare Scope regex_scope.
Delimit Scope regex_scope with re.
Notation "a ;; b" := (Seq a b) (at level 61, right associativity)
  : regex_scope.

(** The article pattern, global: the title label and a colon, group 1
    (any code units, as few as possible), the summary label and a colon,
    group 2 (likewise), the source label and a colon, group 3 (likewise),
    then a lookahead for the title label and a colon or the end of the
    input. *)
Definition articleRegex : regex :=
  (lit label_title ;; Class colon ;; Group 1 (Star false any) ;;
   lit label_summary ;; Class colon ;; Group 2 (Star false any) ;;
   lit label_source ;; Class colon ;; Group 3 (Star false any) ;;
   Lookahead (Alt (lit label_title ;; Class colon) EndOfInput))%re.

(** The URL pattern: [http], an optional [s], [://], then one or more
    code units of the class [url_char], as many as possible. *)
Definition urlRegex : regex :=
  (lit (js "http") ;; Opt (Char 115) ;; lit (js "://") ;; Plus url_char)%re.

(** [source.match(urlRegex)], then [urlMatch[0]] when it is not null. *)
Definition extractSource (source : jsstring) : jsstring :=
  match search urlRegex 0 source with
  | Some urlMatch => m_text urlMatch
  | None => source
  end.

(** The [while ((match = regex.exec(text)) !== null)] loop.  The regular
    expression is global: each [exec] resumes at [lastIndex], the end of
    the previous match ([rest] is the text from [lastIndex] on).  The
    loop is bounded by [fuel]; a loop that would not end is [Diverged]. *)
Fixpoint parse_loop (fuel : nat) (lastIndex : nat) (rest : jsstring)
    (articles : list Article) : outcome (list Article) :=
  match fuel with
  | O => Diverged
  | S fuel' =>
    match search articleRegex lastIndex rest with
    | None => Returned articles
    | Some m =>
      match cap 1 (m_caps m), cap 2 (m_caps m), cap 3 (m_caps m) with
      | Some m1, Some m2, Some m3 =>
        let title := trim m1 in
        let summary := trim m2 in
        let source := extractSource (trim m3) in
        let articles :=
          if truthy title && truthy summary && truthy source
          then articles ++ [mkArticle title summary source]
          else articles in
        parse_loop fuel' (m_end m) (m_after m) articles
      | _, _, _ => Thrown TypeError
      end
    end
  end.

Definition parseArticleResponse (text : jsstring) : outcome (list Article) :=
  parse_loop (S (length text)) 0%nat text [].

End Parser.
Import Parser.

(* ================================================================== *)
(** * [Map], as far as the service uses it *)
(* ================================================================== *)

(** A JavaScript [Map] keeps its entries in insertion order.  Setting a
    key that is already present overwrites the value where the key
    stands; a new key goes to the end. *)

Module JsMap.

Section WithValue.
Context {V : Type}.

Definition t := list (jsstring * V).

Fixpoint set (k : jsstring) (v : V) (m : t) : t :=
  match m with
  | [] => [(k, v)]
  | (k', v') :: m' =>
    if JsString.eqb k' k then (k', v) :: m' else (k', v') :: set k v m'
  end.

Fixpoint get (k : jsstring) (m : t) : option V :=
  match m with
  | [] => None
  | (k', v') :: m' => if JsString.eqb k' k then Some v' else get k m'
  end.

(** [new Map(entries)] *)
Definition of_entries (entries : list (jsstring * V)) : t :=
  fold_left (fun m kv => set (fst kv) (snd kv) m) entries [].

(** [Array.from(m.values())] *)
Definition values (m : t) : list V := map snd m.

Definition keys (m : t) : list jsstring := map fst m.

End WithValue.

End JsMap.

(* ================================================================== *)
(** * The Gemini client and the effects of the service *)
(* ================================================================== *)

Module Service.

(** What [ai.models.generateContent] is called with. *)
Record request : Type := mkRequest {
  model : jsstring;
  contents : jsstring;
  temperature : option N;
  googleSearch : bool
}.

(** What it answers.  Every level the service reads through [?.] may be
    missing; [chunk] is typed [any], so an entry may be [null]. *)
Record web : Type := mkWeb {
  web_uri : option jsstring;
  web_title : option jsstring
}.

Inductive chunk : Type :=
| ChunkNull
| Chunk (w : option web).

Record metadata : Type := mkMetadata {
  groundingChunks : option (list chunk)
}.

Record candidate : Type := mkCandidate {
  groundingMetadata : option metadata
}.

Record response : Type := mkResponse {
  text : option jsstring;
  candidates : option (list candidate)
}.

(** The console and the network, in the order they are used. *)
Inductive event : Type :=
| Generate (r : request)
| ConsoleWarn (e : exn)
| ConsoleError (e : exn).

(** Computations log events and end in an outcome. *)
Definition M (A : Type) : Type := list event -> outcome A * list event.

Definition ret {A} (a : A) : M A := fun log => (Returned a, log).
Definition throw {A} (e : exn) : M A := fun log => (Thrown e, log).
Definition emit (ev : event) : M unit := fun log => (Returned tt, log ++ [ev]).
Definition lift {A} (o : outcome A) : M A := fun log => (o, log).

Definition bind {A B} (c : M A) (f : A -> M B) : M B :=
  fun log =>
    match c log with
    | (Returned a, log') => f a log'
    | (Thrown e, log') => (Thrown e, log')
    | (Diverged, log') => (Diverged, log')
    end.

(** [try { body } catch (error) { handler }] *)
Definition try_catch {A} (body : M A) (handler : exn -> M A) : M A :=
  fun log =>
    match body log with
    | (Thrown e, log') => handler e log'
    | r => r
    end.

Notation "'let*' x ':=' c 'in' k" := (bind c (fun x => k))
  (at level 10, x name, c at level 100, k at level 200).

(** The UTC calendar date of a [Date] value. *)
Record Date : Type := mkDate {
  year : N;
  month : N;
  day : N
}.

Definition digit (n k : N) : N := 48 + (n / 10 ^ k) mod 10.

(** [date.toISOString().split('T')[0]]: [YYYY-MM-DD], the year widened to
    a sign and six digits beyond 9999. *)
Definition formatDate (date : Date) : jsstring :=
  (if year date <=? 9999
   then [digit (year date) 3; digit (year date) 2;
         digit (year date) 1; digit (year date) 0]
   else [43; digit (year date) 5; digit (year date) 4; digit (year date) 3;
         digit (year date) 2; digit (year date) 1; digit (year date) 0])
  ++ [45; digit (month date) 1; digit (month date) 0]
  ++ [45; digit (day date) 1; digit (day date) 0].

(** [s.replace(/\.$/, '')]: the first match of the pattern is cut out. *)
Definition dropFinalPeriod (s : jsstring) : jsstring :=
  match search (Seq (Char 46) EndOfInput) 0 s with
  | Some m => firstn (m_index m) s ++ m_after m
  | None => s
  end.

Definition translatePrompt (keywords : jsstring) : jsstring :=
  js "将以下中文关键词翻译成英文。请只返回翻译后的英文关键词，并用逗号分隔。
    中文关键词：" ++ keywords.

Definition topicFocusClause (combinedKeywords : jsstring) : jsstring :=
  js "4.  **主题聚焦 (Topic Focus):** 文章内容必须聚焦于以下一个或多个主题：“"
  ++ combinedKeywords ++ js "”。".

Definition promptHead : jsstring := js "
**任务：**
为我查找关于“数字经济”的最新、最权威的研究资料。

**核心指令 (必须严格遵守):**

1.  **视角层级 (Scope):** 结果必须是宏观层面的。只关注国家级政策、跨国研究或重要的全球/全国性行业趋势。**严格排除**任何只关注特定省、市或地区的内容。

2.  **内容类型 (Content-Type):** 结果**必须以学术论文（特别是SCI收录的）和深度行业报告为主体**。新闻文章和政府出版物可以作为补充，但不是主要部分。

3.  **语言均衡 (Language Balance):** 最终返回的结果中，中文文献和英文文献的数量**必须大致各占一半 (50/50)**。

".

Definition promptTimeframe : jsstring := js "

5.  **时间范围 (Timeframe):** 发布日期必须在 ".

Definition promptAnd : jsstring := js " 和 ".

Definition promptTail : jsstring := js " 之间。

6.  **排序标准 (Sorting):** 请根据权威性和信息量对所有结果进行综合排序，将最相关的、质量最高的结果放在最前面。

**输出格式 (Output Format):**
请严格按照以下格式为每篇文章或论文提供信息，不要添加任何介绍性文字、编号或总结。
标题：[文章或论文的完整标题]
摘要：[一段简洁的文章或论文摘要]
来源：[文章或论文的直接网址]

每个条目之间请用一个空行分隔。
".

(** The template literal assigned to [prompt]. *)
Definition buildPrompt (topicFocusInstruction startDate endDate : jsstring)
    : jsstring :=
  promptHead ++ topicFocusInstruction ++ promptTimeframe ++ startDate
  ++ promptAnd ++ endDate ++ promptTail.

Definition fetchFailedMessage : jsstring :=
  js "获取文章失败。API 可能不可用或请求失败。".

(** [chunk => ({ uri: chunk.web?.uri || '', title: chunk.web?.title || '' })] *)
Definition sourceOfChunk (c : chunk) : outcome GroundingSource :=
  match c with
  | ChunkNull => Thrown TypeError
  | Chunk None => Returned (mkSource [] [])
  | Chunk (Some w) =>
    Returned (mkSource
      (match web_uri w with Some u => u | None => [] end)
      (match web_title w with Some t => t | None => [] end))
  end.

(** [Array.prototype.map] with a callback that may throw. *)
Fixpoint mapChunks (cs : list chunk) : outcome (list GroundingSource) :=
  match cs with
  | [] => Returned []
  | c :: cs' =>
    match sourceOfChunk c with
    | Returned s =>
      match mapChunks cs' with
      | Returned l => Returned (s :: l)
      | Thrown e => Thrown e
      | Diverged => Diverged
      end
    | Thrown e => Thrown e
    | Diverged => Diverged
    end
  end.

(** [response.candidates?.[0]?.groundingMetadata?.groundingChunks || []] *)
Definition chunksOf (r : response) : list chunk :=
  match candidates r with
  | Some (c :: _) =>
    match groundingMetadata c with
    | Some md =>
      match groundingChunks md with
      | Some cs => cs
      | None => []
      end
    | None => []
    end
  | _ => []
  end.

(** [.filter(source => source.uri)] *)
Definition withUri (l : list GroundingSource) : list GroundingSource :=
  filter (fun s => truthy (uri s)) l.

(** [Array.from(new Map(sources.map(item => [item.uri, item])).values())] *)
Definition uniqueSources (l : list GroundingSource) : list GroundingSource :=
  JsMap.values (JsMap.of_entries (map (fun item => (uri item, item)) l)).

(** The deduplication step, from the mapped chunks to [uniqueSources]. *)
Definition dedupSources (l : list GroundingSource) : list GroundingSource :=
  uniqueSources (withUri l).

(** [regex.exec(text)] turns its argument into a string; [undefined]
    becomes the nine code units of its name. *)
Definition toString (t : option jsstring) : jsstring :=
  match t with
  | Some s => s
  | None => js "undefined"
  end.

Section WithClient.

(** The Gemini service answers a request or rejects it. *)
Variable ai : request -> exn + response.

Definition generateContent (r : request) : M response :=
  let* _ := emit (Generate r) in
  match ai r with
  | inl e => throw e
  | inr resp => ret resp
  end.

Definition translateRequest (keywords : jsstring) : request :=
  mkRequest (js "gemini-2.5-flash") (translatePrompt keywords) (Some 0) false.

Definition translateKeywords (keywords : jsstring) : M jsstring :=
  try_catch
    (let* response := generateContent (translateRequest keywords) in
     match text response with
     | Some t => ret (dropFinalPeriod (trim t))
     | None => throw TypeError
     end)
    (fun error =>
       let* _ := emit (ConsoleWarn error) in
       ret []).

Definition combineKeywords (subTopic translatedKeywords : jsstring)
    : jsstring :=
  if truthy translatedKeywords
  then subTopic ++ js ", " ++ translatedKeywords
  else subTopic.

Definition queryRequest (prompt : jsstring) : request :=
  mkRequest (js "gemini-2.5-pro") prompt None true.

(** The function first reads the clock and steps seven days back with the
    calendar arithmetic of [Date]; the two [Date] values it arrives at,
    [today] and [oneWeekAgo], are taken as given.  Everything from there
    on, up to the [catch], is the body below. *)
Definition fetchDigitalEconomyArticles (today oneWeekAgo : Date)
    (filters : FilterOptions) : M FetchResult :=
  try_catch
    (let startDate := formatDate oneWeekAgo in
     let endDate := formatDate today in
     let* topicFocusInstruction :=
       (if truthy (subTopic filters)
        then
          let* translatedKeywords := translateKeywords (subTopic filters) in
          ret (topicFocusClause
                 (combineKeywords (subTopic filters) translatedKeywords))
        else ret []) in
     let prompt := buildPrompt topicFocusInstruction startDate endDate in
     let* response := generateContent (queryRequest prompt) in
     let* articles := lift (parseArticleResponse (toString (text response))) in
     let* mapped := lift (mapChunks (chunksOf response)) in
     ret (mkResult articles (dedupSources mapped)))
    (fun error =>
       let* _ := emit (ConsoleError error) in
       throw (Error fetchFailedMessage)).

End WithClient.

End Service.
Import Service.

(* ================================================================== *)
(** * The page ([App.tsx]) *)
(* ================================================================== *)

(** The component keeps six pieces of state.  A click on the search
    button runs [handleFetchArticles]: it updates the state, awaits
    [fetchDigitalEconomyArticles] and updates the state again.  The
    updates made in the click handler itself are rendered together; each
    update made after the [await] may be rendered on its own.  Typing in
    the filter runs [handleFilterChange] at any moment. *)

Module App.

Record state : Type := mkState {
  articles : list Article;
  groundingSources : list GroundingSource;
  isLoading : bool;
  error : option jsstring;
  hasSearched : bool;
  filters : FilterOptions
}.

(** The arguments of the [useState] calls. *)
Definition initial : state := mkState [] [] false None false (mkFilters []).

Inductive update : Type :=
| SetArticles (l : list Article)
| SetGroundingSources (l : list GroundingSource)
| SetIsLoading (b : bool)
| SetError (e : option jsstring)
| SetHasSearched (b : bool).

Definition apply_update (s : state) (u : update) : state :=
  match u with
  | SetArticles l =>
    mkState l (groundingSources s) (isLoading s) (error s) (hasSearched s)
            (filters s)
  | SetGroundingSources l =>
    mkState (articles s) l (isLoading s) (error s) (hasSearched s) (filters s)
  | SetIsLoading b =>
    mkState (articles s) (groundingSources s) b (error s) (hasSearched s)
            (filters s)
  | SetError e =>
    mkState (articles s) (groundingSources s) (isLoading s) e (hasSearched s)
            (filters s)
  | SetHasSearched b =>
    mkState (articles s) (groundingSources s) (isLoading s) (error s) b
            (filters s)
  end.

Definition apply_updates (s : state) (us : list update) : state :=
  fold_left apply_update us s.

(** [setFilters(prev => ({ ...prev, [name]: value }))].  The one input of
    [FilterControls] is named [subTopic]; under any other name the object
    would gain a property that nothing reads. *)
Definition handleFilterChange (name value : jsstring) (s : state) : state :=
  if JsString.eqb name (js "subTopic")
  then mkState (articles s) (groundingSources s) (isLoading s) (error s)
               (hasSearched s) (mkFilters value)
  else s.

Definition noArticlesMessage : jsstring :=
  js "模型未根据指定条件返回任何文章。请尝试使用不同的筛选条件重试。".

Definition unknownErrorMessage : jsstring := js "发生未知错误。".

(** [handleFetchArticles], up to the [await]. *)
Definition beforeFetch : list update :=
  [SetIsLoading true; SetError None; SetHasSearched true;
   SetArticles []; SetGroundingSources []].

(** [err instanceof Error ? err.message : '发生未知错误。'].  A value made
    by [new Error(message)] carries its message; [other] tells for every
    other thrown value whether it is an [Error] and with which message. *)
Definition errorText (other : exn -> option jsstring) (err : exn)
    : jsstring :=
  match err with
  | Error message => message
  | _ =>
    match other err with
    | Some message => message
    | None => unknownErrorMessage
    end
  end.

(** [handleFetchArticles], from the [await] on: the [try] branch or the
    [catch] branch, then [finally].  A call that never settles is never
    resumed. *)
Definition afterFetch (other : exn -> option jsstring)
    (o : outcome FetchResult) : option (list update) :=
  match o with
  | Returned (mkResult arts srcs) =>
    Some ((if Nat.eqb (length arts) 0
           then [SetError (Some noArticlesMessage)]
           else [SetArticles arts; SetGroundingSources srcs])
          ++ [SetIsLoading false])
  | Thrown err => Some [SetError (Some (errorText other err));
                        SetIsLoading false]
  | Diverged => None
  end.

(** What is rendered: the alert ([error &&]), the notice that nothing was
    found, the grid of articles, the list of sources, the state of the
    button and the text of a source link ([source.title || source.uri]). *)
Definition showError (s : state) : bool :=
  match error s with
  | Some message => truthy message
  | None => false
  end.

Definition showEmptyNotice (s : state) : bool :=
  negb (isLoading s) && negb (showError s) && hasSearched s
  && Nat.eqb (length (articles s)) 0.

Definition showArticles (s : state) : bool :=
  Nat.ltb 0 (length (articles s)).

Definition showSources (s : state) : bool :=
  Nat.ltb 0 (length (groundingSources s)).

Definition buttonDisabled (s : state) : bool := isLoading s.

Definition linkText (source : GroundingSource) : jsstring :=
  if truthy (Grounding.title source)
  then Grounding.title source else uri source.

(** The page between renders: the state, the updates of a resumed
    handler that are still to be made, and the call a handler awaits. *)
Record config : Type := mkConfig {
  view : state;
  queue : list update;
  awaiting : option (outcome FetchResult)
}.

Section WithErrors.

Variable other : exn -> option jsstring.

Inductive step : config -> config -> Prop :=
| step_change name value s q w :
    step (mkConfig s q w) (mkConfig (handleFilterChange name value s) q w)
| step_click s ai today oneWeekAgo log :
    buttonDisabled s = false ->
    step (mkConfig s [] None)
         (mkConfig (apply_updates s beforeFetch) []
            (Some (fst (fetchDigitalEconomyArticles ai today oneWeekAgo
                          (filters s) log))))
| step_settle s o us :
    afterFetch other o = Some us ->
    step (mkConfig s [] (Some o)) (mkConfig s us None)
| step_update s u q :
    step (mkConfig s (u :: q) None) (mkConfig (apply_update s u) q None).

Inductive reachable : config -> Prop :=
| reach_initial : reachable (mkConfig initial [] None)
| reach_step c c' : reachable c -> step c c' -> reachable c'.

End WithErrors.

End App.

(* ================================================================== *)
(** * Notions the properties are stated with *)
(* ================================================================== *)

Module DedupSpec.

(** The uris of a list in the order they are first seen. *)
Fixpoint first_seen (l : list jsstring) : list jsstring :=
  match l with
  | [] => []
  | x :: l' => x :: filter (fun y => negb (JsString.eqb y x)) (first_seen l')
  end.

(** The first, respectively the last, entry of [l] whose uri is [u]. *)
Definition first_with (u : jsstring) (l : list GroundingSource)
    : option GroundingSource :=
  find (fun e => JsString.eqb (uri e) u) l.

Definition last_with (u : jsstring) (l : list GroundingSource)
    : option GroundingSource :=
  find (fun e => JsString.eqb (uri e) u) (rev l).

Definition entry (item : GroundingSource) : jsstring * GroundingSource :=
  (uri item, item).

End DedupSpec.
Import DedupSpec.

Module ParserSpec.

(** The input at hand starts with the label [lab] and a colon. *)
Definition at_label (lab rest : jsstring) : bool :=
  starts_with lab rest &&
  match skipn (length lab) rest with
  | c :: _ => colon c
  | [] => false
  end.

(** A label with its colon occurs somewhere in [s]. *)
Fixpoint has_label (lab s : jsstring) : bool :=
  at_label lab s ||
  match s with
  | [] => false
  | _ :: s' => has_label lab s'
  end.

(** An article block as the prompt asks for it: the three labels, each
    with one of the two colons, each followed by its field body. *)
Record block : Type := mkBlock {
  b_colon1 : N; b_title : jsstring;
  b_colon2 : N; b_summary : jsstring;
  b_colon3 : N; b_source : jsstring
}.

Definition block_text (b : block) : jsstring :=
  label_title ++ b_colon1 b :: b_title b ++
  label_summary ++ b_colon2 b :: b_summary b ++
  label_source ++ b_colon3 b :: b_source b.

(** The block is well formed: the colons are colons, no field body holds
    the label that ends it, and no field is blank. *)
Record well_formed (b : block) : Prop := mkWellFormed {
  wf_colon1 : colon (b_colon1 b) = true;
  wf_colon2 : colon (b_colon2 b) = true;
  wf_colon3 : colon (b_colon3 b) = true;
  wf_title : has_label label_summary (b_title b) = false;
  wf_summary : has_label label_source (b_summary b) = false;
  wf_source : has_label label_title (b_source b) = false;
  wf_title_text : trim (b_title b) <> [];
  wf_summary_text : trim (b_summary b) <> [];
  wf_source_text : trim (b_source b) <> []
}.

(** The article the claim of the specification expects for a block, and
    the article the parser yields for it. *)
Definition trimmed_article (b : block) : Article :=
  mkArticle (trim (b_title b)) (trim (b_summary b)) (trim (b_source b)).

Definition article_of (b : block) : Article :=
  mkArticle (trim (b_title b)) (trim (b_summary b))
            (extractSource (trim (b_source b))).

(** An absolute http or https URL in the sense of the URL pattern. *)
Definition is_url (u : jsstring) : Prop :=
  exists body,
    (u = js "http://" ++ body \/ u = js "https://" ++ body) /\
    body <> [] /\ Forall (fun c => url_char c = true) body.

(** All three fields of an article are filled. *)
Definition complete (a : Article) : Prop :=
  title a <> [] /\ summary a <> [] /\ source a <> [].

(** The lookahead that ends group 3. *)
Definition block_end (rest : jsstring) : bool :=
  at_label label_title rest || match rest with [] => true | _ => false end.

(** The article pattern, cut after each field. *)
Definition tailRegex : regex :=
  Lookahead (Alt (Seq (lit label_title) (Class colon)) EndOfInput).

Definition fieldRegex (lab : jsstring) (n : nat) (R : regex) : regex :=
  Seq (lit lab) (Seq (Class colon) (Seq (Group n (Star false any)) R)).

Definition urlTail : regex := Seq (lit (js "://")) (Plus url_char).

Definition stops_here (post : jsstring) : Prop :=
  match post with
  | [] => True
  | c :: _ => url_char c = false
  end.

(** What one round of the loop adds for the captures [m1], [m2], [m3]. *)
Definition push_article (m1 m2 m3 : jsstring) (acc : list Article)
    : list Article :=
  if truthy (trim m1) && truthy (trim m2) && truthy (extractSource (trim m3))
  then acc ++ [mkArticle (trim m1) (trim m2) (extractSource (trim m3))]
  else acc.

(** An article the loop can add. *)
Definition emitted (a : Article) : Prop :=
  exists m1 m2 m3,
    a = mkArticle (trim m1) (trim m2) (extractSource (trim m3)) /\ complete a.

Definition blocks_text (bs : list block) : jsstring :=
  concat (map block_text bs).

End ParserSpec.
Import ParserSpec.

Module ServiceSpec.

(** What [translateKeywords] returns and what it logs, read off the
    answer of the service. *)
Definition translated (ai : request -> exn + response) (keywords : jsstring)
    : jsstring :=
  match ai (translateRequest keywords) with
  | inr resp =>
    match text resp with
    | Some t => dropFinalPeriod (trim t)
    | None => []
    end
  | inl _ => []
  end.

Definition translate_events (ai : request -> exn + response)
    (keywords : jsstring) : list event :=
  Generate (translateRequest keywords) ::
  match ai (translateRequest keywords) with
  | inr resp =>
    match text resp with
    | Some _ => []
    | None => [ConsoleWarn TypeError]
    end
  | inl e => [ConsoleWarn e]
  end.

(** The topic-focus instruction and the prompt of a call. *)
Definition topicFocusFor (ai : request -> exn + response)
    (filters : FilterOptions) : jsstring :=
  if truthy (subTopic filters)
  then topicFocusClause
         (combineKeywords (subTopic filters) (translated ai (subTopic filters)))
  else [].

Definition promptFor (ai : request -> exn + response)
    (today oneWeekAgo : Date) (filters : FilterOptions) : jsstring :=
  buildPrompt (topicFocusFor ai filters)
    (formatDate oneWeekAgo) (formatDate today).

(** The events of a call up to and including the main query. *)
Definition query_events (ai : request -> exn + response)
    (today oneWeekAgo : Date) (filters : FilterOptions) : list event :=
  (if truthy (subTopic filters)
   then translate_events ai (subTopic filters) else [])
  ++ [Generate (queryRequest (promptFor ai today oneWeekAgo filters))].

(** The headings of the clauses of the prompt. *)
Definition topicMarker : jsstring := js "4.  **主题聚焦 (Topic Focus):**".
Definition otherMarkers : list jsstring :=
  [js "1.  **视角层级 (Scope):**";
   js "2.  **内容类型 (Content-Type):**";
   js "3.  **语言均衡 (Language Balance):**";
   js "5.  **时间范围 (Timeframe):**";
   js "6.  **排序标准 (Sorting):**";
   js "**输出格式 (Output Format):**"].

(** The keywords a topic-focus clause is to list: the original ones,
    followed, when any were translated, by a comma, a space and the
    translated ones. *)
Definition listed_keywords (original translated : jsstring) : jsstring :=
  match translated with
  | [] => original
  | _ :: _ => original ++ [44; 32] ++ translated
  end.

(** What follows the first occurrence of [p] in [s]. *)
Fixpoint after_first (p s : jsstring) : option jsstring :=
  if starts_with p s then Some (skipn (length p) s)
  else match s with
       | [] => None
       | _ :: s' => after_first p s'
       end.

(** What precedes the last occurrence of the code unit [c] in [s]. *)
Fixpoint before_last (c : N) (s : jsstring) : option jsstring :=
  match s with
  | [] => None
  | x :: s' =>
    match before_last c s' with
    | Some r => Some (x :: r)
    | None => if x =? c then Some [] else None
    end
  end.

(** The quotation marks U+201C and U+201D and the full stop U+3002. *)
Definition openingQuote : N := 8220.
Definition closingQuote : N := 8221.
Definition fullStop : N := 12290.

(** The keywords a prompt asks to focus on, read from its text alone:
    what stands between the first opening quotation mark after the
    heading of the topic-focus clause and the last closing quotation mark
    of the prompt.  A prompt without the heading names none. *)
Definition focus_keywords (prompt : jsstring) : option jsstring :=
  match after_first topicMarker prompt with
  | Some clause =>
    match after_first [openingQuote] clause with
    | Some rest => before_last closingQuote rest
    | None => None
    end
  | None => None
  end.

(** The keywords as a clause quotes them: between the quotation marks,
    closed by a full stop. *)
Definition quoted (keywords : jsstring) : jsstring :=
  [openingQuote] ++ keywords ++ [closingQuote; fullStop].

(** The translation of [keywords] fails with [cause]: the service rejects
    the request, or its answer has no text to clean up. *)
Definition translation_fails (ai : request -> exn + response)
    (keywords : jsstring) (cause : exn) : Prop :=
  ai (translateRequest keywords) = inl cause \/
  exists resp,
    ai (translateRequest keywords) = inr resp /\ text resp = None /\
    cause = TypeError.

Definition is_console_error (ev : event) : bool :=
  match ev with ConsoleError _ => true | _ => false end.

End ServiceSpec.
Import ServiceSpec.

(* ================================================================== *)
(** * Concrete inputs *)
(* ================================================================== *)

Module Samples.

(** Two blocks as the prompt asks for them, one with full-width and one
    with half-width colons, with line breaks inside the fields. *)
Definition sample_blocks : list block :=
  [mkBlock 65306 (js " 全球数字经济
发展报告 ") 65306 (js " 第一行
第二行
") 65306 (js " https://a.org/report.pdf

");
   mkBlock 58 (js " Digital trade ") 58 (js " A survey. ")
           58 (js " see https://b.org/paper?id=7 ")].

(** A block whose source field is a markdown link. *)
Definition markdown_block : block :=
  mkBlock 65306 (js "T") 65306 (js "S") 65306 (js "[链接](https://a.b/c)").

(** A block whose title field is blank. *)
Definition blank_title_block : block :=
  mkBlock 65306 (js " ") 65306 (js "S") 65306 (js "https://a.b/c").

(** A first block without a source label, followed by a complete block. *)
Definition text_missing_source : jsstring :=
  js "标题:A摘要:B标题:C摘要:D来源:E".

(** The source field of the URL example of the specification. *)
Definition source_with_url : jsstring :=
  js "详见: https://example.com/paper?x=1) 更多文字".

Definition text_with_url : jsstring :=
  js "标题：T
摘要：S
来源：详见: https://example.com/paper?x=1) 更多文字".

Definition text_uppercase_scheme : jsstring :=
  js "标题：T
摘要：S
来源： HTTPS://EXAMPLE.COM/A ".

(** Two grounding entries with the same uri and different titles. *)
Definition duplicate_sources : list GroundingSource :=
  [mkSource (js "https://a.org") (js "first");
   mkSource (js "https://a.org") (js "second")].

Definition distinct_sources : list GroundingSource :=
  [mkSource (js "https://a.org") (js "A");
   mkSource (js "https://b.org") [];
   mkSource (js "https://c.org") (js "A")].

(** A service whose translation model is down while the main model
    answers with one article and two grounding chunks. *)
Definition answer : response :=
  mkResponse
    (Some (js "标题：T
摘要：S
来源：https://a.org/x"))
    (Some [mkCandidate (Some (mkMetadata (Some
       [Chunk (Some (mkWeb (Some (js "https://a.org/x")) (Some (js "A"))));
        Chunk (Some (mkWeb (Some (js "https://a.org/x")) None))])))]).

Definition ai_translation_down (r : request) : exn + response :=
  if googleSearch r then inr answer else inl (ServiceError (js "503")).

(** A service whose translation model answers without a text. *)
Definition ai_translation_silent (r : request) : exn + response :=
  if googleSearch r then inr answer else inr (mkResponse None None).

Definition ai_all_down (r : request) : exn + response :=
  inl (ServiceError (js "503")).

Definition today_sample : Date := mkDate 2026 11 1.
Definition week_ago_sample : Date := mkDate 2026 10 25.

End Samples.
Import Samples.

(* ================================================================== *)
(** * Further notions *)
(* ================================================================== *)

Module ExtraSpec.

(** The number of places in [s] where the label [lab] stands with its
    colon. *)
Fixpoint count_label (lab s : jsstring) : nat :=
  (if at_label lab s then 1 else 0) +
  match s with
  | [] => 0
  | _ :: s' => count_label lab s'
  end.

(** [s] neither begins nor ends with white space. *)
Definition trimmed (s : jsstring) : Prop :=
  dropWhile is_space s = s /\ dropWhile is_space (rev s) = rev s.

(** The requests among the events of a call, in order. *)
Fixpoint requests_of (evs : list event) : list request :=
  match evs with
  | [] => []
  | Generate r :: evs' => r :: requests_of evs'
  | _ :: evs' => requests_of evs'
  end.

(** A result that can be rendered as it is: every article has its three
    fields, every source has a uri, and no uri occurs twice. *)
Definition presentable (arts : list Article) (srcs : list GroundingSource)
    : Prop :=
  Forall complete arts /\
  Forall (fun s => uri s <> []) srcs /\
  NoDup (map uri srcs).

(** Inputs for the further properties: a service that answers every
    request with an empty object, and a list with repeated and empty
    uris. *)
Definition ai_bare (r : request) : exn + response :=
  inr (mkResponse None None).

Definition mixed_sources : list GroundingSource :=
  [mkSource (js "https://a.org") (js "A");
   mkSource [] (js "no uri");
   mkSource (js "https://b.org") (js "B");
   mkSource (js "https://a.org") []].

(** ** The page *)

(** The alert shows nothing, the message for an empty result or the
    message of a failed call. *)
Definition known_error (e : option jsstring) : Prop :=
  e = None \/ e = Some App.noArticlesMessage \/ e = Some fetchFailedMessage.

(** What holds of every state that is rendered. *)
Record rendered_ok (s : App.state) : Prop := mkRenderedOk {
  ok_notice : App.showEmptyNotice s = false;
  ok_sources : App.showSources s = true -> App.showArticles s = true;
  ok_error : known_error (App.error s);
  ok_data : presentable (App.articles s) (App.groundingSources s);
  ok_idle : App.isLoading s = false -> App.hasSearched s = true ->
            App.showError s = negb (App.showArticles s)
}.

(** The updates in [q] lead from [s], through states that may all be
    rendered, to a state that is not loading; until then it is. *)
Fixpoint settles (s : App.state) (q : list App.update) : Prop :=
  match q with
  | [] => App.isLoading s = false
  | u :: q' =>
    App.isLoading s = true /\
    rendered_ok (App.apply_update s u) /\
    settles (App.apply_update s u) q'
  end.

(** What [fetchDigitalEconomyArticles] guarantees to its caller. *)
Definition fetch_contract (o : outcome FetchResult) : Prop :=
  (exists r, o = Returned r /\ presentable (articles r) (sources r)) \/
  o = Thrown (Error fetchFailedMessage).

(** The state while a call is awaited. *)
Definition waiting_view (s : App.state) : Prop :=
  App.isLoading s = true /\ App.error s = None /\
  App.hasSearched s = true /\ App.articles s = [] /\
  App.groundingSources s = [].

Definition page_ok (c : App.config) : Prop :=
  rendered_ok (App.view c) /\
  match App.awaiting c with
  | Some o => App.queue c = [] /\ waiting_view (App.view c) /\ fetch_contract o
  | None => settles (App.view c) (App.queue c)
  end.

(** Two states that differ in the filter only. *)
Definition same_view (s s' : App.state) : Prop :=
  App.articles s = App.articles s' /\
  App.groundingSources s = App.groundingSources s' /\
  App.isLoading s = App.isLoading s' /\
  App.error s = App.error s' /\
  App.hasSearched s = App.hasSearched s'.

(** A session: the user types a sub-topic and clicks; the translation is
    down, the main query is answered; the handler resumes and makes its
    three updates. *)
Definition no_other_errors (e : exn) : option jsstring := None.

Definition typed_page : App.config :=
  App.mkConfig (App.handleFilterChange (js "subTopic") (js "AI") App.initial)
    [] None.

Definition clicked_page : App.config :=
  App.mkConfig (App.apply_updates (App.view typed_page) App.beforeFetch) []
    (Some (fst (fetchDigitalEconomyArticles ai_translation_down today_sample
                  week_ago_sample (App.filters (App.view typed_page)) []))).

Definition shown_page : App.config :=
  App.mkConfig
    (App.mkState [mkArticle (js "T") (js "S") (js "https://a.org/x")]
       [mkSource (js "https://a.org/x") []] false None true
       (mkFilters (js "AI")))
    [] None.

End ExtraSpec.
Import ExtraSpec.

(* ================================================================== *)
(** * Properties of the deduplication step *)
(* ================================================================== *)

Module DedupFacts.

Lemma eqb_eq (a b : jsstring) : JsString.eqb a b = true <-> a = b.
Proof.
  unfold JsString.eqb. destruct (list_eq_dec N.eq_dec a b); split;
    intros; congruence.
Qed.

Lemma eqb_neq (a b : jsstring) : JsString.eqb a b = false <-> a <> b.
Proof.
  unfold JsString.eqb. destruct (list_eq_dec N.eq_dec a b); split;
    intros; congruence.
Qed.

Lemma eqb_refl (a : jsstring) : JsString.eqb a a = true.
Proof. now apply eqb_eq. Qed.

Section MapLemmas.
Context {V : Type}.
Implicit Types (m : @JsMap.t V) (k : jsstring) (v : V).

Lemma keys_set_in k v m :
  In k (JsMap.keys m) -> JsMap.keys (JsMap.set k v m) = JsMap.keys m.
Proof.
  induction m as [|[k' v'] m IH]; simpl; intros H.
  - contradiction.
  - destruct (JsString.eqb k' k) eqn:E; simpl; [reflexivity|].
    f_equal. apply IH. destruct H as [H|H]; [|exact H].
    apply eqb_neq in E. congruence.
Qed.

Lemma keys_set_notin k v m :
  ~ In k (JsMap.keys m) -> JsMap.set k v m = m ++ [(k, v)].
Proof.
  induction m as [|[k' v'] m IH]; simpl; intros H.
  - reflexivity.
  - destruct (JsString.eqb k' k) eqn:E.
    + apply eqb_eq in E. tauto.
    + f_equal. apply IH. tauto.
Qed.

Lemma get_set_same k v m : JsMap.get k (JsMap.set k v m) = Some v.
Proof.
  induction m as [|[k' v'] m IH]; simpl.
  - now rewrite eqb_refl.
  - destruct (JsString.eqb k' k) eqn:E; simpl; rewrite E; auto.
Qed.

Lemma get_set_other k k' v m :
  k' <> k -> JsMap.get k' (JsMap.set k v m) = JsMap.get k' m.
Proof.
  intros Hne. induction m as [|[k0 v0] m IH]; simpl.
  - destruct (JsString.eqb k k') eqn:E; [|reflexivity].
    apply eqb_eq in E. congruence.
  - destruct (JsString.eqb k0 k) eqn:E; simpl.
    + apply eqb_eq in E. subst k0.
      destruct (JsString.eqb k k') eqn:E'; [|reflexivity].
      apply eqb_eq in E'. congruence.
    + now rewrite IH.
Qed.

Lemma of_entries_snoc (es : list (jsstring * V)) k v :
  JsMap.of_entries (es ++ [(k, v)]) = JsMap.set k v (JsMap.of_entries es).
Proof. unfold JsMap.of_entries. now rewrite fold_left_app. Qed.

Lemma in_get k v m : NoDup (JsMap.keys m) -> In (k, v) m -> JsMap.get k m = Some v.
Proof.
  induction m as [|[k' v'] m IH]; simpl; intros Hnd Hin; [contradiction|].
  inversion Hnd as [|? ? Hk Hnd']; subst.
  destruct Hin as [Hin|Hin].
  - inversion Hin; subst. now rewrite eqb_refl.
  - destruct (JsString.eqb k' k) eqn:E.
    + apply eqb_eq in E. subst k'. exfalso. apply Hk.
      change k with (fst (k, v)). now apply in_map.
    + auto.
Qed.

End MapLemmas.

Lemma first_seen_in (x : jsstring) l : In x (first_seen l) <-> In x l.
Proof.
  induction l as [|a l IH]; simpl; [tauto|].
  rewrite filter_In, IH. split.
  - intros [H|[H _]]; auto.
  - intros [H|H]; auto.
    destruct (list_eq_dec N.eq_dec a x) as [e|n]; [now left|right].
    split; [exact H|]. apply negb_true_iff, eqb_neq. congruence.
Qed.

Lemma first_seen_NoDup l : NoDup (first_seen l).
Proof.
  induction l as [|a l IH]; simpl; constructor.
  - rewrite filter_In. intros [_ H]. now rewrite eqb_refl in H.
  - now apply NoDup_filter.
Qed.

Lemma first_seen_snoc l x :
  first_seen (l ++ [x]) =
  if in_dec (list_eq_dec N.eq_dec) x l then first_seen l
  else first_seen l ++ [x].
Proof.
  induction l as [|a l IH]; simpl.
  - reflexivity.
  - rewrite IH. destruct (list_eq_dec N.eq_dec a x) as [e|n].
    + subst a. destruct (in_dec (list_eq_dec N.eq_dec) x l); [reflexivity|].
      rewrite filter_app. simpl. rewrite eqb_refl. simpl.
      now rewrite app_nil_r.
    + destruct (in_dec (list_eq_dec N.eq_dec) x l); [reflexivity|].
      rewrite filter_app. simpl.
      assert (E : JsString.eqb x a = false) by (apply eqb_neq; congruence).
      now rewrite E.
Qed.

Lemma keys_of_entries l :
  JsMap.keys (JsMap.of_entries (map entry l)) = first_seen (map uri l).
Proof.
  induction l as [|x l IH] using rev_ind; [reflexivity|].
  rewrite !map_app. simpl. unfold entry at 2.
  rewrite of_entries_snoc, first_seen_snoc.
  destruct (in_dec (list_eq_dec N.eq_dec) (uri x) (map uri l)) as [i|n].
  - rewrite keys_set_in; [exact IH|]. rewrite IH. now apply first_seen_in.
  - rewrite keys_set_notin.
    + unfold JsMap.keys in *. rewrite map_app, IH. reflexivity.
    + rewrite IH, first_seen_in. exact n.
Qed.

Lemma get_of_entries u l :
  JsMap.get u (JsMap.of_entries (map entry l)) = last_with u l.
Proof.
  unfold last_with.
  induction l as [|x l IH] using rev_ind; [reflexivity|].
  rewrite map_app. simpl. unfold entry at 2. rewrite of_entries_snoc.
  rewrite rev_app_distr. simpl.
  destruct (JsString.eqb (uri x) u) eqn:E.
  - apply eqb_eq in E. subst u. apply get_set_same.
  - rewrite get_set_other; [exact IH|]. apply eqb_neq in E. congruence.
Qed.

Lemma entries_keyed l k v :
  In (k, v) (JsMap.of_entries (map entry l)) -> k = uri v.
Proof.
  revert k v. induction l as [|x l IH] using rev_ind; intros k v.
  - simpl. contradiction.
  - rewrite map_app. simpl. unfold entry at 2. rewrite of_entries_snoc.
    generalize dependent (JsMap.of_entries (map entry l)).
    intros m IHm. induction m as [|[k' v'] m IHm']; simpl.
    + intros [H|[]]. now inversion H.
    + destruct (JsString.eqb k' (uri x)) eqn:E; simpl.
      * apply eqb_eq in E. intros [H|H].
        -- inversion H; subst. reflexivity.
        -- apply IHm. now right.
      * intros [H|H].
        -- apply IHm. now left.
        -- apply IHm'; [|exact H]. intros k0 v0 H0. apply IHm. now right.
Qed.

Lemma uniqueSources_uris l :
  map uri (uniqueSources l) = first_seen (map uri l).
Proof.
  unfold uniqueSources. fold entry. rewrite <- keys_of_entries.
  unfold JsMap.values, JsMap.keys.
  assert (H := entries_keyed l).
  induction (JsMap.of_entries (map entry l)) as [|[k v] m IH]; simpl.
  - reflexivity.
  - f_equal.
    + symmetry. apply H. now left.
    + apply IH. intros k0 v0 H0. apply H. now right.
Qed.

Lemma uniqueSources_last l s :
  In s (uniqueSources l) -> last_with (uri s) l = Some s.
Proof.
  unfold uniqueSources. fold entry. intros Hin.
  rewrite <- get_of_entries.
  apply in_map_iff in Hin. destruct Hin as [[k v] [Hv Hin]].
  simpl in Hv. subst v.
  assert (Hk := entries_keyed _ _ _ Hin). subst k.
  apply in_get; [|exact Hin].
  rewrite keys_of_entries. apply first_seen_NoDup.
Qed.

Lemma withUri_id l :
  Forall (fun s => uri s <> []) l -> withUri l = l.
Proof.
  unfold withUri. induction 1 as [|s l Hs _ IH]; simpl; [reflexivity|].
  destruct (uri s); [congruence|]. simpl. now rewrite IH.
Qed.

Lemma last_with_withUri u l :
  u <> [] -> last_with u (withUri l) = last_with u l.
Proof.
  intros Hu. unfold last_with, withUri.
  induction l as [|x l IH] using rev_ind; [reflexivity|].
  rewrite filter_app, !rev_app_distr. simpl.
  destruct (uri x) as [|c u'] eqn:Ex; simpl.
  - rewrite IH.
    destruct (JsString.eqb [] u) eqn:E; [|reflexivity].
    apply eqb_eq in E. congruence.
  - rewrite Ex. destruct (JsString.eqb (c :: u') u); [reflexivity|exact IH].
Qed.

Lemma uniqueSources_NoDup_id l :
  NoDup (map uri l) -> uniqueSources l = l.
Proof.
  unfold uniqueSources. fold entry. intros Hnd.
  assert (E : JsMap.of_entries (map entry l) = map entry l).
  { induction l as [|x l IH] using rev_ind; [reflexivity|].
    rewrite map_app in Hnd. simpl in Hnd.
    apply NoDup_remove in Hnd. rewrite !app_nil_r in Hnd.
    destruct Hnd as [Hnd Hx].
    rewrite map_app. simpl. unfold entry at 2.
    rewrite of_entries_snoc, keys_set_notin.
    - now rewrite IH.
    - rewrite keys_of_entries, first_seen_in. exact Hx. }
  rewrite E. unfold JsMap.values. rewrite map_map. simpl. apply map_id.
Qed.

End DedupFacts.

(* ================================================================== *)
(** * Properties of strings and of the matcher *)
(* ================================================================== *)

Module RegexFacts.

Lemma starts_with_app (p s : jsstring) : starts_with p (p ++ s) = true.
Proof. induction p; simpl; [reflexivity|]. now rewrite N.eqb_refl. Qed.

Lemma starts_with_split (p s : jsstring) :
  starts_with p s = true -> s = p ++ skipn (length p) s.
Proof.
  revert s. induction p as [|a p IH]; intros [|b s]; simpl; try easy.
  intros H. apply andb_true_iff in H. destruct H as [H1 H2].
  apply N.eqb_eq in H1. subst b. f_equal. now apply IH.
Qed.

Lemma skipn_app_exact {A} (l1 l2 : list A) : skipn (length l1) (l1 ++ l2) = l2.
Proof. induction l1; simpl; auto. Qed.

Lemma firstn_app_exact {A} (l1 l2 : list A) : firstn (length l1) (l1 ++ l2) = l1.
Proof. induction l1; simpl; congruence. Qed.

Lemma skipn_S_tl {A} n : forall l : list A, skipn (S n) l = tl (skipn n l).
Proof.
  induction n as [|n IH]; intros [|a l]; try reflexivity.
  change (skipn (S (S n)) (a :: l)) with (skipn (S n) l).
  change (skipn (S n) (a :: l)) with (skipn n l). apply IH.
Qed.

Lemma rmatch_lit (l : jsstring) : forall pos rest cs k,
  rmatch (lit l) (MState pos rest cs) k =
  if starts_with l rest
  then k (MState (pos + length l) (skipn (length l) rest) cs)
  else None.
Proof.
  induction l as [|a l IH]; intros pos rest cs k; simpl.
  - now rewrite Nat.add_0_r.
  - destruct rest as [|b rest]; [reflexivity|].
    rewrite (N.eqb_sym a b). destruct (b =? a); simpl; [|reflexivity].
    rewrite IH. now rewrite Nat.add_succ_r.
Qed.

Lemma star_lazy_now p pos rest cs k y :
  k (MState pos rest cs) = Some y -> star_lazy p pos rest cs k = Some y.
Proof. intros H. destruct rest; simpl; now rewrite H. Qed.

Lemma star_lazy_skip p k cs (pre : jsstring) : forall pos suf,
  Forall (fun c => p c = true) pre ->
  (forall i, (i < length pre)%nat ->
     k (MState (pos + i) (skipn i pre ++ suf) cs) = None) ->
  star_lazy p pos (pre ++ suf) cs k =
  star_lazy p (pos + length pre) suf cs k.
Proof.
  induction pre as [|c pre IH]; intros pos suf Hp Hk; simpl.
  - now rewrite Nat.add_0_r.
  - inversion Hp as [|? ? Hc Hp']; subst.
    generalize (Hk 0%nat ltac:(simpl; lia)). rewrite Nat.add_0_r. simpl.
    intros ->. rewrite Hc, IH; auto.
    + now rewrite Nat.add_succ_r.
    + intros i Hi. generalize (Hk (S i) ltac:(simpl; lia)).
      now rewrite Nat.add_succ_r.
Qed.

Lemma star_lazy_inv p k cs y : forall rest pos,
  star_lazy p pos rest cs k = Some y ->
  exists i, (i <= length rest)%nat /\
            k (MState (pos + i) (skipn i rest) cs) = Some y.
Proof.
  induction rest as [|c rest IH]; intros pos; simpl.
  - destruct (k (MState pos [] cs)) eqn:E; [|discriminate].
    intros H. exists 0%nat. rewrite Nat.add_0_r. simpl. split; [lia|congruence].
  - destruct (k (MState pos (c :: rest) cs)) eqn:E.
    + intros H. exists 0%nat. rewrite Nat.add_0_r. simpl.
      split; [lia|congruence].
    + destruct (p c); [|discriminate]. intros H.
      destruct (IH _ H) as [i [Hi Hk]]. exists (S i).
      rewrite Nat.add_succ_r. simpl. split; [lia|exact Hk].
Qed.

Lemma star_greedy_all p cs : forall rest pos,
  star_greedy p pos rest cs (fun y => Some y) =
  Some (MState (pos + length (takeWhile p rest)) (dropWhile p rest) cs).
Proof.
  induction rest as [|c rest IH]; intros pos; simpl.
  - now rewrite Nat.add_0_r.
  - destruct (p c); simpl.
    + rewrite IH. now rewrite Nat.add_succ_r.
    + now rewrite Nat.add_0_r.
Qed.

Lemma takeWhile_dropWhile p (s : jsstring) :
  takeWhile p s ++ dropWhile p s = s.
Proof. induction s as [|c s IH]; simpl; [reflexivity|]. destruct (p c); simpl; congruence. Qed.

Lemma takeWhile_all p (s : jsstring) : Forall (fun c => p c = true) (takeWhile p s).
Proof.
  induction s as [|c s IH]; simpl; [constructor|].
  destruct (p c) eqn:E; constructor; auto.
Qed.

Lemma dropWhile_head p (s : jsstring) :
  match dropWhile p s with [] => True | c :: _ => p c = false end.
Proof.
  induction s as [|c s IH]; simpl; [exact I|].
  destruct (p c) eqn:E; [exact IH|exact E].
Qed.

(** [search] finds the leftmost index at which the matcher succeeds. *)
Lemma search_some r : forall rest pos m,
  search r pos rest = Some m ->
  exists i y, (i <= length rest)%nat /\
    rmatch r (MState (pos + i) (skipn i rest) []) (fun y => Some y) = Some y /\
    (forall j, (j < i)%nat ->
       rmatch r (MState (pos + j) (skipn j rest) []) (fun y => Some y) = None) /\
    m = MatchResult (pos + i) (st_pos y) (st_rest y)
          (firstn (st_pos y - (pos + i)) (skipn i rest)) (st_caps y).
Proof.
  induction rest as [|c rest IH]; intros pos m; simpl.
  - destruct (rmatch r (MState pos [] []) _) as [y|] eqn:E; [|discriminate].
    intros H. exists 0%nat, y. rewrite Nat.add_0_r. simpl.
    repeat split; [lia|exact E|intros; lia|congruence].
  - destruct (rmatch r (MState pos (c :: rest) []) _) as [y|] eqn:E.
    + intros H. exists 0%nat, y. rewrite Nat.add_0_r. simpl.
      repeat split; [lia|exact E|intros; lia|congruence].
    + intros H. destruct (IH _ _ H) as [i [y [Hi [Hy [Hlt Hm]]]]].
      exists (S i), y. rewrite Nat.add_succ_r. simpl.
      repeat split; [lia|exact Hy| |exact Hm].
      intros [|j] Hj; [now rewrite Nat.add_0_r|].
      rewrite Nat.add_succ_r. simpl. apply Hlt. lia.
Qed.

Lemma search_none r : forall rest pos,
  search r pos rest = None ->
  forall i, (i <= length rest)%nat ->
    rmatch r (MState (pos + i) (skipn i rest) []) (fun y => Some y) = None.
Proof.
  induction rest as [|c rest IH]; intros pos; simpl.
  - destruct (rmatch r (MState pos [] []) _) eqn:E; [discriminate|].
    intros _ i Hi. assert (i = 0)%nat by lia. subst i.
    now rewrite Nat.add_0_r.
  - destruct (rmatch r (MState pos (c :: rest) []) _) eqn:E; [discriminate|].
    intros H [|i] Hi; [now rewrite Nat.add_0_r|].
    rewrite Nat.add_succ_r. simpl. apply (IH (S pos) H). lia.
Qed.

Lemma search_here r pos rest y :
  rmatch r (MState pos rest []) (fun y => Some y) = Some y ->
  search r pos rest =
  Some (MatchResult pos (st_pos y) (st_rest y)
          (firstn (st_pos y - pos) rest) (st_caps y)).
Proof. intros H. destruct rest; simpl; now rewrite H. Qed.

Lemma search_skip r (pre : jsstring) : forall pos suf,
  (forall i, (i < length pre)%nat ->
     rmatch r (MState (pos + i) (skipn i pre ++ suf) []) (fun y => Some y)
     = None) ->
  search r pos (pre ++ suf) = search r (pos + length pre) suf.
Proof.
  induction pre as [|c pre IH]; intros pos suf H; simpl.
  - now rewrite Nat.add_0_r.
  - generalize (H 0%nat ltac:(simpl; lia)). rewrite Nat.add_0_r. simpl.
    intros ->. rewrite IH.
    + now rewrite Nat.add_succ_r.
    + intros i Hi. generalize (H (S i) ltac:(simpl; lia)).
      now rewrite Nat.add_succ_r.
Qed.

End RegexFacts.

(* ================================================================== *)
(** * Properties of the article pattern *)
(* ================================================================== *)

Module ParserFacts.
Import RegexFacts.

Lemma any_true c : any c = true.
Proof. unfold any. destruct (is_space c); reflexivity. Qed.

Lemma all_any (s : jsstring) : Forall (fun c => any c = true) s.
Proof. induction s; constructor; auto using any_true. Qed.

Lemma at_label_split lab rest :
  at_label lab rest = true ->
  exists c rest', rest = lab ++ c :: rest' /\ colon c = true.
Proof.
  unfold at_label. intros H. apply andb_true_iff in H. destruct H as [H1 H2].
  apply starts_with_split in H1.
  destruct (skipn (length lab) rest) as [|c rest'] eqn:E; [discriminate|].
  exists c, rest'. split; [congruence|exact H2].
Qed.

Lemma at_label_app lab c rest :
  colon c = true -> at_label lab (lab ++ c :: rest) = true.
Proof.
  intros H. unfold at_label.
  now rewrite starts_with_app, skipn_app_exact.
Qed.

(** The label and its colon, in front of any continuation [k]. *)
Lemma rmatch_label lab pos rest cs k :
  rmatch (lit lab) (MState pos rest cs)
    (fun y => rmatch (Class colon) y k) =
  if at_label lab rest
  then k (MState (pos + length lab + 1) (skipn (S (length lab)) rest) cs)
  else None.
Proof.
  rewrite rmatch_lit. unfold at_label.
  destruct (starts_with lab rest) eqn:E; [|reflexivity].
  rewrite skipn_S_tl.
  destruct (skipn (length lab) rest) as [|c r]; simpl; [reflexivity|].
  destruct (colon c); [|reflexivity].
  now rewrite Nat.add_1_r.
Qed.

Lemma rmatch_lookahead pos rest cs k :
  rmatch (Lookahead (Alt (Seq (lit label_title) (Class colon)) EndOfInput))
    (MState pos rest cs) k =
  if block_end rest then k (MState pos rest cs) else None.
Proof.
  unfold block_end.
  change (rmatch (Lookahead (Alt (Seq (lit label_title) (Class colon))
                                 EndOfInput)) (MState pos rest cs) k)
    with (match
            match rmatch (lit label_title) (MState pos rest cs)
                    (fun y => rmatch (Class colon) y (fun y => Some y)) with
            | Some y => Some y
            | None => rmatch EndOfInput (MState pos rest cs) (fun y => Some y)
            end
          with
          | Some y => k (MState pos rest (st_caps y))
          | None => None
          end).
  rewrite rmatch_label.
  destruct (at_label label_title rest); simpl; [reflexivity|].
  destruct rest; reflexivity.
Qed.

Lemma skipn_label (lab : jsstring) c r :
  skipn (S (length lab)) (lab ++ c :: r) = r.
Proof. induction lab; simpl; auto. Qed.

Lemma articleRegex_fields :
  articleRegex =
  fieldRegex label_title 1
    (fieldRegex label_summary 2 (fieldRegex label_source 3 tailRegex)).
Proof. reflexivity. Qed.

Lemma rmatch_fieldRegex lab n R pos rest cs k :
  rmatch (fieldRegex lab n R) (MState pos rest cs) k =
  if at_label lab rest
  then
    star_lazy any (pos + length lab + 1) (skipn (S (length lab)) rest) cs
      (fun y =>
         rmatch R (MState (st_pos y) (st_rest y)
                     ((n, firstn (st_pos y - (pos + length lab + 1))
                            (skipn (S (length lab)) rest)) :: st_caps y)) k)
  else None.
Proof.
  unfold fieldRegex.
  change (rmatch (Seq (lit lab) (Seq (Class colon)
                    (Seq (Group n (Star false any)) R))) (MState pos rest cs) k)
    with (rmatch (lit lab) (MState pos rest cs)
            (fun y => rmatch (Class colon) y
               (fun z => rmatch (Seq (Group n (Star false any)) R) z k))).
  rewrite rmatch_label. destruct (at_label lab rest); reflexivity.
Qed.

(** A field whose body is skipped over because the rest of the pattern
    fails inside it. *)
Lemma field_match lab n R pos c body rest' cs k y :
  colon c = true ->
  (forall i cs', (i < length body)%nat ->
     rmatch R (MState (pos + length lab + 1 + i) (skipn i body ++ rest') cs') k
     = None) ->
  rmatch R (MState (pos + length lab + 1 + length body) rest'
              ((n, body) :: cs)) k = Some y ->
  rmatch (fieldRegex lab n R) (MState pos (lab ++ c :: body ++ rest') cs) k
  = Some y.
Proof.
  intros Hc Hskip Hend. rewrite rmatch_fieldRegex, at_label_app by exact Hc.
  rewrite skipn_label.
  rewrite star_lazy_skip.
  - apply star_lazy_now. cbn [st_pos st_rest st_caps].
    replace (pos + length lab + 1 + length body - (pos + length lab + 1))%nat
      with (length body) by lia.
    now rewrite firstn_app_exact.
  - apply all_any.
  - intros i Hi. cbn [st_pos st_rest st_caps]. now apply Hskip.
Qed.

(** What a successful match of a field tells. *)
Lemma field_inv lab n R pos rest cs k y :
  rmatch (fieldRegex lab n R) (MState pos rest cs) k = Some y ->
  exists c body rest',
    rest = lab ++ c :: body ++ rest' /\ colon c = true /\
    rmatch R (MState (pos + length lab + 1 + length body) rest'
                ((n, body) :: cs)) k = Some y.
Proof.
  rewrite rmatch_fieldRegex. destruct (at_label lab rest) eqn:E; [|discriminate].
  intros H. apply at_label_split in E. destruct E as [c [r [Hr Hc]]].
  apply star_lazy_inv in H. destruct H as [i [Hi H]].
  cbn [st_pos st_rest st_caps] in H.
  assert (Hs : skipn (S (length lab)) rest = r)
    by (rewrite Hr; apply skipn_label).
  rewrite Hs in *.
  exists c, (firstn i r), (skipn i r). split; [|split].
  - now rewrite firstn_skipn.
  - exact Hc.
  - rewrite length_firstn, Nat.min_l by exact Hi.
    replace (pos + length lab + 1 + i - (pos + length lab + 1))%nat
      with i in H by lia.
    exact H.
Qed.

Lemma fieldRegex_fails lab n R pos rest cs k :
  at_label lab rest = false ->
  rmatch (fieldRegex lab n R) (MState pos rest cs) k = None.
Proof. intros H. now rewrite rmatch_fieldRegex, H. Qed.

Lemma at_label_pair a b rest :
  at_label [a; b] rest =
  match rest with
  | x :: y :: c :: _ => (a =? x) && (b =? y) && colon c
  | _ => false
  end.
Proof.
  unfold at_label. destruct rest as [|x [|y [|c r]]]; simpl;
    try reflexivity.
  - now rewrite andb_false_r.
  - now rewrite !andb_false_r.
  - now rewrite andb_true_r.
Qed.

(** A label cannot begin inside a body that does not hold it and end in
    the label that follows the body. *)
Lemma no_straddle a b :
  a <> b -> colon a = false ->
  forall t suf,
    has_label [a; b] t = false ->
    suf = [] \/ (exists suf', suf = a :: b :: suf') ->
    forall i, (i < length t)%nat ->
      at_label [a; b] (skipn i t ++ suf) = false.
Proof.
  intros Hab Ha. induction t as [|x t IH]; intros suf Hh Hs i Hi.
  - simpl in Hi. lia.
  - simpl in Hh. apply orb_false_iff in Hh. destruct Hh as [H0 Hh].
    destruct i as [|i].
    + simpl skipn. rewrite at_label_pair in *.
      destruct t as [|y [|z t]]; simpl.
      * destruct Hs as [->|[suf' ->]]; simpl; [reflexivity|].
        apply N.eqb_neq in Hab. rewrite (N.eqb_sym b a), Hab.
        now rewrite andb_false_r.
      * destruct Hs as [->|[suf' ->]]; simpl; [reflexivity|].
        now rewrite Ha, andb_false_r.
      * exact H0.
    + simpl. apply IH; auto. simpl in Hi. lia.
Qed.

Lemma label_title_units : label_title = [26631; 39064].
Proof. reflexivity. Qed.

Lemma label_summary_units : label_summary = [25688; 35201].
Proof. reflexivity. Qed.

Lemma label_source_units : label_source = [26469; 28304].
Proof. reflexivity. Qed.

Lemma block_text_app b after :
  block_text b ++ after =
  label_title ++ b_colon1 b :: b_title b ++
  (label_summary ++ b_colon2 b :: b_summary b ++
   (label_source ++ b_colon3 b :: b_source b ++ after)).
Proof.
  unfold block_text.
  repeat (rewrite <- ?app_assoc, <- ?app_comm_cons). reflexivity.
Qed.

Lemma block_text_length b :
  length (block_text b) =
  (9 + length (b_title b) + length (b_summary b) + length (b_source b))%nat.
Proof.
  unfold block_text.
  repeat (rewrite ?length_app; cbn [length]).
  rewrite label_title_units, label_summary_units, label_source_units.
  simpl. lia.
Qed.

Lemma block_end_cases after :
  block_end after = true ->
  after = [] \/ exists suf', after = 26631 :: 39064 :: suf'.
Proof.
  unfold block_end. intros H. apply orb_true_iff in H. destruct H as [H|H].
  - right. apply at_label_split in H. destruct H as [c [r [H _]]].
    exists (c :: r). exact H.
  - left. destruct after; [reflexivity|discriminate].
Qed.

(** A well-formed block is matched where it stands, and as a whole. *)
Lemma match_block b after pos :
  well_formed b -> block_end after = true ->
  rmatch articleRegex (MState pos (block_text b ++ after) [])
    (fun y => Some y) =
  Some (MState (pos + length (block_text b)) after
          [(3%nat, b_source b); (2%nat, b_summary b); (1%nat, b_title b)]).
Proof.
  intros [Hc1 Hc2 Hc3 Ht Hs Hr _ _ _] Hend.
  rewrite articleRegex_fields, block_text_app.
  apply field_match; [exact Hc1| |].
  { intros i cs' Hi. apply fieldRegex_fails.
    rewrite label_summary_units in *.
    apply no_straddle; auto; [discriminate|right; eexists; reflexivity]. }
  apply field_match; [exact Hc2| |].
  { intros i cs' Hi. apply fieldRegex_fails.
    rewrite label_source_units in *.
    apply no_straddle; auto; [discriminate|right; eexists; reflexivity]. }
  apply field_match; [exact Hc3| |].
  { intros i cs' Hi. unfold tailRegex. rewrite rmatch_lookahead.
    unfold block_end. rewrite label_title_units in *.
    rewrite no_straddle; auto; [|discriminate|now apply block_end_cases].
    destruct (skipn i (b_source b) ++ after) eqn:E; [|reflexivity].
    apply (f_equal (@length N)) in E.
    rewrite length_app, length_skipn in E. simpl in E. lia. }
  unfold tailRegex. rewrite rmatch_lookahead, Hend. f_equal. f_equal.
  rewrite block_text_length.
  rewrite label_title_units, label_summary_units, label_source_units.
  simpl. lia.
Qed.

(** Every match of the article pattern has the three labels in order and
    fills the three groups. *)
Lemma article_match_inv pos rest cs y :
  rmatch articleRegex (MState pos rest cs) (fun y => Some y) = Some y ->
  exists b after,
    rest = block_text b ++ after /\
    colon (b_colon1 b) = true /\ colon (b_colon2 b) = true /\
    colon (b_colon3 b) = true /\ block_end after = true /\
    y = MState (pos + length (block_text b)) after
          ((3%nat, b_source b) :: (2%nat, b_summary b)
             :: (1%nat, b_title b) :: cs).
Proof.
  rewrite articleRegex_fields. intros H.
  apply field_inv in H. destruct H as [c1 [t [r1 [E1 [Hc1 H]]]]].
  apply field_inv in H. destruct H as [c2 [s [r2 [E2 [Hc2 H]]]]].
  apply field_inv in H. destruct H as [c3 [r [after [E3 [Hc3 H]]]]].
  unfold tailRegex in H. rewrite rmatch_lookahead in H.
  destruct (block_end after) eqn:Hend; [|discriminate].
  exists (mkBlock c1 t c2 s c3 r), after.
  rewrite block_text_app, block_text_length. simpl.
  subst rest r1 r2. repeat split; auto.
  inversion H. f_equal. lia.
Qed.

(** ** The URL pattern *)

Lemma rmatch_urlTail pos rest cs :
  rmatch urlTail (MState pos rest cs) (fun y => Some y) =
  if starts_with (js "://") rest
  then
    match skipn 3 rest with
    | c :: r =>
      if url_char c
      then Some (MState (pos + 3 + 1 + length (takeWhile url_char r))
                   (dropWhile url_char r) cs)
      else None
    | [] => None
    end
  else None.
Proof.
  unfold urlTail.
  change (rmatch (Seq (lit (js "://")) (Plus url_char)) (MState pos rest cs)
            (fun y => Some y))
    with (rmatch (lit (js "://")) (MState pos rest cs)
            (fun y => rmatch (Plus url_char) y (fun y => Some y))).
  rewrite rmatch_lit. destruct (starts_with (js "://") rest); [|reflexivity].
  change (length (js "://")) with 3%nat.
  destruct (skipn 3 rest) as [|c r]; [reflexivity|].
  unfold Plus. simpl. destruct (url_char c); [|reflexivity].
  rewrite star_greedy_all. do 2 f_equal. lia.
Qed.

Lemma rmatch_urlRegex pos rest cs :
  rmatch urlRegex (MState pos rest cs) (fun y => Some y) =
  if starts_with (js "http") rest
  then
    match
      match skipn 4 rest with
      | a :: r5 =>
        if a =? 115
        then rmatch urlTail (MState (S (pos + 4)) r5 cs) (fun y => Some y)
        else None
      | [] => None
      end
    with
    | Some y => Some y
    | None => rmatch urlTail (MState (pos + 4) (skipn 4 rest) cs)
                (fun y => Some y)
    end
  else None.
Proof.
  unfold urlRegex.
  change (rmatch (Seq (lit (js "http"))
                    (Seq (Opt (Char 115)) (Seq (lit (js "://")) (Plus url_char))))
            (MState pos rest cs) (fun y => Some y))
    with (rmatch (lit (js "http")) (MState pos rest cs)
            (fun y => rmatch (Seq (Opt (Char 115)) urlTail) y
                        (fun y => Some y))).
  rewrite rmatch_lit. destruct (starts_with (js "http") rest); [|reflexivity].
  change (length (js "http")) with 4%nat.
  destruct (skipn 4 rest) as [|a r5]; reflexivity.
Qed.

Lemma urlTail_inv pos rest cs y :
  rmatch urlTail (MState pos rest cs) (fun y => Some y) = Some y ->
  exists body,
    rest = js "://" ++ body ++ st_rest y /\ body <> [] /\
    Forall (fun c => url_char c = true) body /\ stops_here (st_rest y) /\
    st_pos y = (pos + 3 + length body)%nat /\ st_caps y = cs.
Proof.
  rewrite rmatch_urlTail.
  destruct (starts_with (js "://") rest) eqn:E; [|discriminate].
  apply starts_with_split in E. change (length (js "://")) with 3%nat in E.
  destruct (skipn 3 rest) as [|c r]; [discriminate|].
  destruct (url_char c) eqn:Ec; [|discriminate].
  intros H. inversion H; subst y; clear H. simpl.
  exists (c :: takeWhile url_char r). repeat split.
  - rewrite E at 1. simpl. now rewrite takeWhile_dropWhile.
  - discriminate.
  - constructor; [exact Ec|apply takeWhile_all].
  - unfold stops_here. apply dropWhile_head.
  - simpl. lia.
Qed.

(** A match of the URL pattern is a URL that ends where the input ends
    or a code unit outside the class stands. *)
Lemma url_match_inv pos rest cs y :
  rmatch urlRegex (MState pos rest cs) (fun y => Some y) = Some y ->
  exists u,
    is_url u /\ rest = u ++ st_rest y /\ stops_here (st_rest y) /\
    st_pos y = (pos + length u)%nat /\ st_caps y = cs.
Proof.
  rewrite rmatch_urlRegex.
  destruct (starts_with (js "http") rest) eqn:E; [|discriminate].
  apply starts_with_split in E. change (length (js "http")) with 4%nat in E.
  destruct (match skipn 4 rest with
            | [] => None
            | a :: r5 => if a =? 115 then _ else None
            end) as [y'|] eqn:Es.
  - destruct (skipn 4 rest) as [|a r5]; [discriminate|].
    destruct (a =? 115) eqn:Ea; [|discriminate].
    apply N.eqb_eq in Ea. subst a. intros H. inversion H; subst y'; clear H.
    apply urlTail_inv in Es.
    destruct Es as [body [Hr [Hne [Hall [Hstop [Hpos Hcs]]]]]].
    exists (js "https://" ++ body). repeat split; auto.
    + exists body. auto.
    + rewrite E, Hr. rewrite <- app_assoc. reflexivity.
    + rewrite Hpos, length_app. change (length (js "https://")) with 8%nat. lia.
  - intros H. apply urlTail_inv in H.
    destruct H as [body [Hr [Hne [Hall [Hstop [Hpos Hcs]]]]]].
    exists (js "http://" ++ body). repeat split; auto.
    + exists body. auto.
    + rewrite E, Hr. rewrite <- app_assoc. reflexivity.
    + rewrite Hpos, length_app. change (length (js "http://")) with 7%nat. lia.
Qed.

(** The literals of the URL pattern as code units, so that the matcher
    runs through them by computation. *)
Ltac url_literals :=
  change (js "https://") with [104; 116; 116; 112; 115; 58; 47; 47];
  change (js "http://") with [104; 116; 116; 112; 58; 47; 47];
  change (js "http") with [104; 116; 116; 112].

(** Where a URL stands the URL pattern matches. *)
Lemma url_match_complete pos u post cs :
  is_url u ->
  exists y, rmatch urlRegex (MState pos (u ++ post) cs) (fun y => Some y)
            = Some y.
Proof.
  intros [body [[Hu|Hu] [Hne Hall]]]; subst u;
    destruct body as [|c body]; try congruence;
    inversion Hall as [|? ? Hc Hall']; subst;
    rewrite rmatch_urlRegex.
  - url_literals. simpl. rewrite Hc, star_greedy_all. eauto.
  - url_literals. simpl. rewrite Hc, star_greedy_all. eauto.
Qed.

Lemma search_none_intro r rest pos :
  (forall i, (i <= length rest)%nat ->
     rmatch r (MState (pos + i) (skipn i rest) []) (fun y => Some y) = None) ->
  search r pos rest = None.
Proof.
  intros H. destruct (search r pos rest) as [m|] eqn:E; [|reflexivity].
  apply search_some in E. destruct E as [i [y [Hi [Hy _]]]].
  rewrite H in Hy by exact Hi. discriminate.
Qed.

Lemma is_url_nonempty u : is_url u -> u <> [].
Proof. intros [body [[->| ->] _]]; discriminate. Qed.

(** [source.match]: the leftmost URL, taken as far as it goes, or null
    when the text holds no URL. *)
Lemma url_search_some s m :
  search urlRegex 0 s = Some m ->
  exists pre post,
    s = pre ++ m_text m ++ post /\ is_url (m_text m) /\ stops_here post /\
    (forall pre' u' post',
       s = pre' ++ u' ++ post' -> is_url u' -> (length pre <= length pre')%nat).
Proof.
  intros E. apply search_some in E.
  destruct E as [i [y [Hi [Hy [Hlt Hm]]]]].
  apply url_match_inv in Hy.
  destruct Hy as [u [Hu [Hs [Hstop [Hpos _]]]]].
  assert (Ht : m_text m = u).
  { subst m. simpl. rewrite Hpos, Hs.
    replace (0 + i + length u - i)%nat with (length u) by lia.
    apply firstn_app_exact. }
  rewrite Ht. exists (firstn i s), (st_rest y). repeat split; auto.
  - rewrite <- Hs. now rewrite firstn_skipn.
  - intros pre' u' post' Hdec Hu'.
    rewrite length_firstn, Nat.min_l by exact Hi.
    destruct (Nat.le_gt_cases i (length pre')) as [Hle|Hgt]; [exact Hle|].
    specialize (Hlt _ Hgt). rewrite Hdec, skipn_app_exact in Hlt.
    destruct (url_match_complete (0 + length pre') u' post' [] Hu')
      as [y' Hy'].
    rewrite Hy' in Hlt. discriminate.
Qed.

Lemma url_search_none s :
  search urlRegex 0 s = None ->
  forall pre' u' post', s = pre' ++ u' ++ post' -> ~ is_url u'.
Proof.
  intros E pre' u' post' Hdec Hu'.
  assert (Hi : (length pre' <= length s)%nat)
    by (rewrite Hdec, length_app; lia).
  generalize (search_none _ _ _ E _ Hi).
  rewrite Hdec, skipn_app_exact.
  destruct (url_match_complete (0 + length pre') u' post' [] Hu')
    as [y' ->].
  discriminate.
Qed.

Lemma extractSource_nonempty s : s <> [] -> extractSource s <> [].
Proof.
  intros Hs. unfold extractSource.
  destruct (search urlRegex 0 s) as [m|] eqn:E; [|exact Hs].
  apply url_search_some in E. destruct E as [_ [_ [_ [Hu _]]]].
  now apply is_url_nonempty.
Qed.

Lemma url_char_excludes c :
  url_char c = true ->
  is_space c = false /\ c <> 34 /\ c <> 39 /\ c <> 41 /\ c <> 60 /\ c <> 62.
Proof.
  unfold url_char. intros H. apply negb_true_iff in H.
  do 5 (apply orb_false_iff in H; destruct H as [H ?]).
  repeat split; try assumption; apply N.eqb_neq; assumption.
Qed.

Lemma is_url_shape u :
  is_url u ->
  (starts_with (js "http://") u = true \/
   starts_with (js "https://") u = true) /\
  Forall (fun c => url_char c = true) u.
Proof.
  intros [body [[->| ->] [_ Hall]]]; (split;
    [ rewrite !starts_with_app; auto
    | apply Forall_app; split; [|exact Hall];
      repeat constructor ]).
Qed.

(** ** The loop of [parseArticleResponse] *)

Lemma truthy_true (s : jsstring) : truthy s = true <-> s <> [].
Proof. destruct s; simpl; split; congruence. Qed.

(** A match of the article pattern during the search: the three groups
    are set and the match is not empty. *)
Lemma search_article pos rest m :
  search articleRegex pos rest = Some m ->
  exists b,
    m_caps m = [(3%nat, b_source b); (2%nat, b_summary b); (1%nat, b_title b)]
    /\ (length (m_after m) + 9 <= length rest)%nat
    /\ (m_index m < m_end m)%nat.
Proof.
  intros E. apply search_some in E.
  destruct E as [i [y [Hi [Hy [_ Hm]]]]].
  apply article_match_inv in Hy.
  destruct Hy as [b [after [Hr [_ [_ [_ [_ Hy]]]]]]].
  exists b. subst m y. simpl. repeat split.
  - apply (f_equal (@length N)) in Hr.
    rewrite length_skipn, length_app, block_text_length in Hr. lia.
  - lia.
Qed.

Lemma parse_loop_step fuel pos rest acc m b :
  search articleRegex pos rest = Some m ->
  m_caps m = [(3%nat, b_source b); (2%nat, b_summary b); (1%nat, b_title b)] ->
  parse_loop (S fuel) pos rest acc =
  parse_loop fuel (m_end m) (m_after m)
    (push_article (b_title b) (b_summary b) (b_source b) acc).
Proof. intros E Hc. simpl. rewrite E, Hc. reflexivity. Qed.

(** The loop ends, and with any fuel beyond the length of the input it
    ends the same way. *)
Lemma parse_loop_returns : forall fuel pos rest acc,
  (length rest < fuel)%nat ->
  exists l, parse_loop fuel pos rest acc = Returned l.
Proof.
  induction fuel as [|fuel IH]; intros pos rest acc Hf; [lia|].
  destruct (search articleRegex pos rest) as [m|] eqn:E.
  - destruct (search_article _ _ _ E) as [b [Hc [Hlen _]]].
    rewrite (parse_loop_step _ _ _ _ _ _ E Hc). apply IH. lia.
  - exists acc. simpl. now rewrite E.
Qed.

Lemma parse_loop_fuel : forall fuel fuel' pos rest acc,
  (length rest < fuel)%nat -> (length rest < fuel')%nat ->
  parse_loop fuel pos rest acc = parse_loop fuel' pos rest acc.
Proof.
  induction fuel as [|fuel IH]; intros [|fuel'] pos rest acc Hf Hf'; try lia.
  destruct (search articleRegex pos rest) as [m|] eqn:E.
  - destruct (search_article _ _ _ E) as [b [Hc [Hlen _]]].
    rewrite !(parse_loop_step _ _ _ _ _ _ E Hc). apply IH; lia.
  - simpl. now rewrite E.
Qed.

Lemma push_article_emitted m1 m2 m3 acc :
  Forall emitted acc -> Forall emitted (push_article m1 m2 m3 acc).
Proof.
  intros H. unfold push_article.
  destruct (truthy (trim m1)) eqn:E1; [|exact H].
  destruct (truthy (trim m2)) eqn:E2; [|exact H].
  destruct (truthy (extractSource (trim m3))) eqn:E3; [|exact H].
  simpl. apply Forall_app. split; [exact H|]. constructor; [|constructor].
  exists m1, m2, m3. split; [reflexivity|].
  apply truthy_true in E1, E2, E3. now repeat split.
Qed.

Lemma parse_loop_emitted : forall fuel pos rest acc l,
  Forall emitted acc ->
  parse_loop fuel pos rest acc = Returned l -> Forall emitted l.
Proof.
  induction fuel as [|fuel IH]; intros pos rest acc l Hacc; [discriminate|].
  destruct (search articleRegex pos rest) as [m|] eqn:E.
  - destruct (search_article _ _ _ E) as [b [Hc _]].
    rewrite (parse_loop_step _ _ _ _ _ _ E Hc). apply IH.
    now apply push_article_emitted.
  - simpl. rewrite E. intros H. inversion H. now subst.
Qed.

Lemma push_article_well_formed b acc :
  well_formed b ->
  push_article (b_title b) (b_summary b) (b_source b) acc =
  acc ++ [article_of b].
Proof.
  intros Hwf. unfold push_article.
  rewrite (proj2 (truthy_true _) (wf_title_text _ Hwf)).
  rewrite (proj2 (truthy_true _) (wf_summary_text _ Hwf)).
  rewrite (proj2 (truthy_true _)
             (extractSource_nonempty _ (wf_source_text _ Hwf))).
  reflexivity.
Qed.

Lemma blocks_text_end bs :
  Forall well_formed bs -> block_end (blocks_text bs) = true.
Proof.
  intros [|b bs' Hwf _]; [reflexivity|].
  unfold block_end.
  change (blocks_text (b :: bs')) with (block_text b ++ blocks_text bs').
  rewrite block_text_app.
  now rewrite at_label_app by apply (wf_colon1 _ Hwf).
Qed.

(** A text made of well-formed blocks yields their articles, in order. *)
Lemma parse_loop_blocks : forall bs fuel pos acc,
  Forall well_formed bs -> (length bs < fuel)%nat ->
  parse_loop fuel pos (blocks_text bs) acc =
  Returned (acc ++ map article_of bs).
Proof.
  induction bs as [|b bs IH]; intros fuel pos acc Hwf Hf;
    (destruct fuel as [|fuel]; [simpl in Hf; lia|]).
  - simpl. now rewrite app_nil_r.
  - inversion Hwf as [|? ? Hb Hbs]; subst.
    assert (E := match_block b (blocks_text bs) pos Hb (blocks_text_end _ Hbs)).
    apply search_here in E. cbn [st_pos st_rest st_caps] in E.
    change (blocks_text (b :: bs)) with (block_text b ++ blocks_text bs).
    rewrite (parse_loop_step _ _ _ _ _ b E eq_refl).
    cbn [m_end m_after]. rewrite push_article_well_formed by exact Hb.
    rewrite IH; [|exact Hbs|simpl in Hf; lia].
    now rewrite <- app_assoc.
Qed.

Lemma blocks_text_length bs : (length bs <= length (blocks_text bs))%nat.
Proof.
  induction bs as [|b bs IH]; [simpl; lia|].
  change (blocks_text (b :: bs)) with (block_text b ++ blocks_text bs).
  rewrite length_app, block_text_length. simpl. lia.
Qed.


(** ** Texts without a match, URLs that are cut, texts without a URL *)

Lemma has_label_skipn lab : forall s i,
  has_label lab s = false -> at_label lab (skipn i s) = false.
Proof.
  induction s as [|c s IH]; intros i H; simpl in H;
    apply orb_false_iff in H; destruct H as [H0 H1].
  - now destruct i.
  - destruct i as [|i]; [exact H0|]. simpl. now apply IH.
Qed.

Lemma search_without_title text pos :
  has_label label_title text = false ->
  search articleRegex pos text = None.
Proof.
  intros H. apply search_none_intro. intros i _.
  rewrite articleRegex_fields. apply fieldRegex_fails.
  now apply has_label_skipn.
Qed.

Lemma includes_skipn (p : jsstring) : forall s i,
  includes p s = false -> starts_with p (skipn i s) = false.
Proof.
  induction s as [|c s IH]; intros i H; simpl in H;
    apply orb_false_iff in H; destruct H as [H0 H1].
  - now destruct i.
  - destruct i as [|i]; [exact H0|]. simpl. now apply IH.
Qed.

Lemma search_without_http s :
  includes (js "http") s = false -> search urlRegex 0 s = None.
Proof.
  intros H. apply search_none_intro. intros i _.
  rewrite rmatch_urlRegex. now rewrite (includes_skipn _ _ i H).
Qed.

Lemma takeWhile_stop p (s : jsstring) c rest :
  Forall (fun x => p x = true) s -> p c = false ->
  takeWhile p (s ++ c :: rest) = s /\ dropWhile p (s ++ c :: rest) = c :: rest.
Proof.
  intros Hs Hc. induction Hs as [|x s Hx _ [IH1 IH2]]; simpl.
  - now rewrite Hc.
  - rewrite Hx. split; congruence.
Qed.

(** A URL followed by a code unit outside the class is matched up to
    that code unit. *)
Lemma url_match_stops pos u c rest cs :
  is_url u -> url_char c = false ->
  rmatch urlRegex (MState pos (u ++ c :: rest) cs) (fun y => Some y) =
  Some (MState (pos + length u) (c :: rest) cs).
Proof.
  intros [body [[Hu|Hu] [Hne Hall]]] Hc; subst u;
    destruct body as [|b body]; try congruence;
    inversion Hall as [|? ? Hb Hall']; subst;
    destruct (takeWhile_stop url_char body c rest Hall' Hc) as [Ht Hd];
    rewrite rmatch_urlRegex.
  - url_literals. simpl. rewrite Hb, star_greedy_all, Ht, Hd.
    do 2 f_equal. lia.
  - url_literals. simpl. rewrite Hb, star_greedy_all, Ht, Hd.
    do 2 f_equal. lia.
Qed.

Lemma extractSource_stops u c rest :
  is_url u -> url_char c = false -> extractSource (u ++ c :: rest) = u.
Proof.
  intros Hu Hc. unfold extractSource.
  rewrite (search_here _ _ _ _ (url_match_stops 0 u c rest [] Hu Hc)).
  simpl. rewrite Nat.sub_0_r. apply firstn_app_exact.
Qed.


(** Text in front of the first block is passed over when it holds no
    title label. *)
Lemma parse_loop_preamble fuel pos pre rest acc :
  has_label label_title pre = false -> block_end rest = true ->
  parse_loop fuel pos (pre ++ rest) acc =
  parse_loop fuel (pos + length pre) rest acc.
Proof.
  intros Hpre Hend. destruct fuel as [|fuel]; [reflexivity|].
  assert (E : search articleRegex pos (pre ++ rest) =
              search articleRegex (pos + length pre) rest).
  { apply search_skip. intros i Hi.
    rewrite articleRegex_fields. apply fieldRegex_fails.
    rewrite label_title_units in *.
    apply no_straddle; auto; [discriminate|now apply block_end_cases]. }
  simpl. now rewrite E.
Qed.

End ParserFacts.

(* ================================================================== *)
(** * Properties of the service *)
(* ================================================================== *)

Module ServiceFacts.
Import RegexFacts ParserFacts.

Lemma translateKeywords_run ai keywords log :
  translateKeywords ai keywords log =
  (Returned (translated ai keywords), log ++ translate_events ai keywords).
Proof.
  unfold translateKeywords, translated, translate_events, try_catch,
    generateContent, bind, emit, ret, throw.
  destruct (ai (translateRequest keywords)) as [e|resp].
  - now rewrite <- app_assoc.
  - destruct (text resp); [reflexivity|]. now rewrite <- app_assoc.
Qed.

Lemma mapChunks_not_diverged cs : mapChunks cs <> Diverged.
Proof.
  induction cs as [|c cs IH]; simpl; [discriminate|].
  destruct c as [|[w|]]; simpl; try discriminate;
    destruct (mapChunks cs); congruence.
Qed.

Lemma mapChunks_null cs : In ChunkNull cs -> mapChunks cs = Thrown TypeError.
Proof.
  induction cs as [|c cs IH]; simpl; [contradiction|].
  intros [->|H]; [reflexivity|].
  destruct c as [|[w|]]; simpl; try reflexivity; now rewrite IH.
Qed.

Lemma parse_returns text :
  exists l, parseArticleResponse text = Returned l.
Proof. apply parse_loop_returns. lia. Qed.

(** One call of [fetchDigitalEconomyArticles], step by step. *)
Lemma fetch_run ai today oneWeekAgo filters log :
  fetchDigitalEconomyArticles ai today oneWeekAgo filters log =
  let evs := query_events ai today oneWeekAgo filters in
  match ai (queryRequest (promptFor ai today oneWeekAgo filters)) with
  | inl e =>
    (Thrown (Error fetchFailedMessage), log ++ evs ++ [ConsoleError e])
  | inr resp =>
    match parseArticleResponse (toString (text resp)) with
    | Returned arts =>
      match mapChunks (chunksOf resp) with
      | Returned mapped =>
        (Returned (mkResult arts (dedupSources mapped)), log ++ evs)
      | Thrown e =>
        (Thrown (Error fetchFailedMessage), log ++ evs ++ [ConsoleError e])
      | Diverged => (Diverged, log ++ evs)
      end
    | Thrown e =>
      (Thrown (Error fetchFailedMessage), log ++ evs ++ [ConsoleError e])
    | Diverged => (Diverged, log ++ evs)
    end
  end.
Proof.
  unfold fetchDigitalEconomyArticles, query_events, promptFor, topicFocusFor.
  unfold try_catch at 1. unfold bind at 1.
  destruct (truthy (subTopic filters)).
  - unfold bind at 1. rewrite translateKeywords_run.
    unfold ret at 1. unfold bind at 1.
    unfold generateContent, bind, emit, ret, throw, lift.
    destruct (ai _) as [e|resp]; cbv zeta.
    + now rewrite <- !app_assoc.
    + destruct (parseArticleResponse _); cbv zeta; rewrite <- ?app_assoc;
        try reflexivity.
      destruct (mapChunks _); rewrite <- ?app_assoc; reflexivity.
  - unfold ret at 1.
    unfold generateContent, bind, emit, ret, throw, lift.
    destruct (ai _) as [e|resp]; cbv zeta.
    + now rewrite <- !app_assoc.
    + destruct (parseArticleResponse _); cbv zeta; rewrite <- ?app_assoc;
        try reflexivity.
      destruct (mapChunks _); rewrite <- ?app_assoc; reflexivity.
Qed.

(** ** Occurrences in the prompt *)

Lemma starts_with_app_l (p s b : jsstring) :
  starts_with p s = true -> starts_with p (s ++ b) = true.
Proof.
  revert s. induction p as [|a p IH]; intros [|c s]; simpl; try easy.
  intros H. apply andb_true_iff in H. destruct H as [H1 H2].
  now rewrite H1, IH.
Qed.

Lemma includes_app_l (p s b : jsstring) :
  includes p s = true -> includes p (s ++ b) = true.
Proof.
  induction s as [|c s IH]; simpl.
  - rewrite orb_false_r. intros H. destruct p; [|discriminate].
    destruct b; reflexivity.
  - intros H. apply orb_true_iff in H. apply orb_true_iff.
    destruct H as [H|H]; [left|right; auto].
    now apply (starts_with_app_l p (c :: s) b).
Qed.

Lemma includes_app_r (p a s : jsstring) :
  includes p s = true -> includes p (a ++ s) = true.
Proof.
  intros H. induction a as [|c a IH]; simpl; [exact H|].
  rewrite IH. apply orb_true_r.
Qed.

Lemma starts_with_incl (p s : jsstring) :
  starts_with p s = true -> incl p s.
Proof.
  revert s. induction p as [|a p IH]; intros s; [intros _ x []|].
  destruct s as [|c s]; simpl; [discriminate|].
  intros H. apply andb_true_iff in H. destruct H as [H1 H2].
  apply N.eqb_eq in H1. subst c. intros x [->|Hx]; [now left|right].
  now apply (IH s).
Qed.

Lemma includes_incl (p s : jsstring) : includes p s = true -> incl p s.
Proof.
  induction s as [|c s IH]; simpl; intros H; apply orb_true_iff in H;
    destruct H as [H|H]; try discriminate.
  - now apply starts_with_incl.
  - now apply starts_with_incl.
  - intros x Hx. right. now apply IH.
Qed.

Lemma digit_bound n k : digit n k < 58.
Proof.
  unfold digit. assert (H : (n / 10 ^ k) mod 10 < 10)
    by (apply N.mod_upper_bound; discriminate). lia.
Qed.

Lemma formatDate_chars d : Forall (fun c => c < 58) (formatDate d).
Proof.
  unfold formatDate. destruct (year d <=? 9999);
    repeat (apply Forall_app; split);
    repeat constructor; try apply digit_bound.
Qed.

Lemma not_in_pieces c (a b : jsstring) :
  ~ In c a -> ~ In c b -> ~ In c (a ++ b).
Proof. intros Ha Hb H. apply in_app_or in H. tauto. Qed.

Lemma existsb_not_in c (s : jsstring) :
  existsb (N.eqb c) s = false -> ~ In c s.
Proof.
  intros H Hin. assert (E : existsb (N.eqb c) s = true).
  { apply existsb_exists. exists c. split; [exact Hin|apply N.eqb_refl]. }
  congruence.
Qed.

(** Without a topic-focus instruction the heading of the clause does not
    occur in the prompt: one of its code units (32858) occurs nowhere. *)
Lemma prompt_without_topic startDate endDate :
  includes topicMarker
    (buildPrompt [] (formatDate startDate) (formatDate endDate)) = false.
Proof.
  destruct (includes topicMarker _) eqn:E; [|reflexivity]. exfalso.
  apply includes_incl in E.
  assert (Hin : In 32858 topicMarker) by (vm_compute; tauto).
  apply E in Hin. revert Hin. unfold buildPrompt.
  assert (Hd : forall d, ~ In 32858 (formatDate d)).
  { intros d H. assert (Hc := formatDate_chars d).
    rewrite Forall_forall in Hc. apply Hc in H. lia. }
  assert (Hc : forall piece,
             existsb (N.eqb 32858) piece = false -> ~ In 32858 piece)
    by (intros piece; apply existsb_not_in).
  apply not_in_pieces; [apply Hc; vm_compute; reflexivity|].
  apply not_in_pieces; [apply Hc; vm_compute; reflexivity|].
  apply not_in_pieces; [apply Hc; vm_compute; reflexivity|].
  apply not_in_pieces; [apply Hd|].
  apply not_in_pieces; [apply Hc; vm_compute; reflexivity|].
  apply not_in_pieces; [apply Hd|apply Hc; vm_compute; reflexivity].
Qed.

Lemma prompt_with_topic kw startDate endDate :
  includes topicMarker
    (buildPrompt (topicFocusClause kw) startDate endDate) = true.
Proof.
  unfold buildPrompt. apply includes_app_r, includes_app_l.
  unfold topicFocusClause. apply includes_app_l. vm_compute. reflexivity.
Qed.

Lemma prompt_other_clauses tfi startDate endDate :
  Forall (fun m => includes m (buildPrompt tfi startDate endDate) = true)
    otherMarkers.
Proof.
  unfold buildPrompt, otherMarkers.
  assert (Hhead : forall m, includes m promptHead = true ->
            includes m (promptHead ++ tfi ++ promptTimeframe ++ startDate
                        ++ promptAnd ++ endDate ++ promptTail) = true)
    by (intros m Hm; now apply includes_app_l).
  assert (Htime : forall m, includes m promptTimeframe = true ->
            includes m (promptHead ++ tfi ++ promptTimeframe ++ startDate
                        ++ promptAnd ++ endDate ++ promptTail) = true)
    by (intros m Hm; do 2 apply includes_app_r; now apply includes_app_l).
  assert (Htail : forall m, includes m promptTail = true ->
            includes m (promptHead ++ tfi ++ promptTimeframe ++ startDate
                        ++ promptAnd ++ endDate ++ promptTail) = true)
    by (intros m Hm; now do 6 apply includes_app_r).
  constructor; [apply Hhead; vm_compute; reflexivity|].
  constructor; [apply Hhead; vm_compute; reflexivity|].
  constructor; [apply Hhead; vm_compute; reflexivity|].
  constructor; [apply Htime; vm_compute; reflexivity|].
  constructor; [apply Htail; vm_compute; reflexivity|].
  constructor; [apply Htail; vm_compute; reflexivity|].
  constructor.
Qed.

Lemma query_events_quiet ai today oneWeekAgo filters :
  existsb is_console_error (query_events ai today oneWeekAgo filters) = false.
Proof.
  unfold query_events, translate_events. rewrite existsb_app. simpl.
  destruct (truthy (subTopic filters)); [|reflexivity]. simpl.
  destruct (ai _) as [e|resp]; [reflexivity|].
  destruct (text resp); reflexivity.
Qed.

Lemma fetch_events ai today oneWeekAgo filters log :
  exists after,
    snd (fetchDigitalEconomyArticles ai today oneWeekAgo filters log) =
    log ++ query_events ai today oneWeekAgo filters ++ after /\
    (after = [] \/ exists e, after = [ConsoleError e]).
Proof.
  rewrite fetch_run. cbv zeta.
  destruct (ai _) as [e|resp]; [eexists; split; [reflexivity|eauto]|].
  destruct (parseArticleResponse _);
    [|eexists; split; [reflexivity|eauto]
     |exists []; rewrite app_nil_r; auto].
  destruct (mapChunks _);
    [exists []; rewrite app_nil_r; auto
    |eexists; split; [reflexivity|eauto]
    |exists []; rewrite app_nil_r; auto].
Qed.


(** ** The keywords a prompt names *)

Lemma starts_with_long (p a s : jsstring) :
  (length p <= length a)%nat -> starts_with p (a ++ s) = starts_with p a.
Proof.
  revert a. induction p as [|x p IH]; intros [|y a] H; simpl in *;
    try reflexivity; [lia|].
  f_equal. apply IH. lia.
Qed.

Lemma starts_with_self (p s : jsstring) : starts_with p (p ++ s) = true.
Proof. induction p as [|x p IH]; simpl; [reflexivity|]. now rewrite N.eqb_refl. Qed.

Lemma skipn_self (p s : jsstring) : skipn (length p) (p ++ s) = s.
Proof. induction p as [|x p IH]; simpl; auto. Qed.

Lemma after_first_eq (p s : jsstring) :
  after_first p s =
  if starts_with p s then Some (skipn (length p) s)
  else match s with
       | [] => None
       | _ :: s' => after_first p s'
       end.
Proof. destruct s; reflexivity. Qed.

(** When the first occurrence of [p] in [h ++ p] is the one at its end,
    it is also the first one in [h ++ p ++ s]. *)
Lemma after_first_app (p h s : jsstring) :
  after_first p (h ++ p) = Some [] ->
  after_first p (h ++ p ++ s) = Some s.
Proof.
  induction h as [|x h IH]; intros H.
  - cbn [app]. now rewrite after_first_eq, starts_with_self, skipn_self.
  - rewrite after_first_eq in H. rewrite after_first_eq.
    assert (L : (length p <= length ((x :: h) ++ p))%nat)
      by (rewrite length_app; lia).
    rewrite app_assoc, (starts_with_long _ _ _ L).
    destruct (starts_with p ((x :: h) ++ p)) eqn:E.
    + exfalso. injection H as H. apply (f_equal (@length N)) in H.
      rewrite length_skipn in H. cbn [app length] in H.
      rewrite length_app in H. lia.
    + cbn [app] in *. rewrite <- app_assoc. now apply IH.
Qed.

Lemma after_first_none (p s : jsstring) :
  includes p s = false -> after_first p s = None.
Proof.
  induction s as [|c s IH]; simpl; intros H; apply orb_false_iff in H;
    destruct H as [H1 H2]; rewrite H1; auto.
Qed.

Lemma before_last_none c (s : jsstring) : ~ In c s -> before_last c s = None.
Proof.
  induction s as [|x s IH]; simpl; [reflexivity|]. intros H.
  rewrite IH by tauto.
  destruct (N.eqb_spec x c) as [->|_]; [tauto|reflexivity].
Qed.

Lemma before_last_app c (a b : jsstring) :
  ~ In c b -> before_last c (a ++ c :: b) = Some a.
Proof.
  intros H. induction a as [|x a IH]; simpl.
  - now rewrite before_last_none, N.eqb_refl.
  - now rewrite IH.
Qed.

(** The text of a prompt with a topic-focus clause, piece by piece. *)
Lemma prompt_pieces kw startDate endDate :
  buildPrompt (topicFocusClause kw) startDate endDate =
  promptHead ++ topicMarker ++
  (js " 文章内容必须聚焦于以下一个或多个主题：" ++ [openingQuote] ++
   (kw ++ closingQuote ::
      (fullStop :: promptTimeframe ++ startDate ++ promptAnd ++ endDate
                   ++ promptTail))).
Proof.
  unfold buildPrompt, topicFocusClause.
  assert (H1 : js "4.  **主题聚焦 (Topic Focus):** 文章内容必须聚焦于以下一个或多个主题：“" =
               topicMarker ++ js " 文章内容必须聚焦于以下一个或多个主题：" ++
               [openingQuote]) by (vm_compute; reflexivity).
  assert (H2 : js "”。" = [closingQuote; fullStop])
    by (vm_compute; reflexivity).
  rewrite H1, H2, <- !app_assoc.
  do 5 (apply (f_equal2 (@app N)); [reflexivity|]). reflexivity.
Qed.

(** The keywords between the quotation marks of the clause are the ones
    the clause was built with, whatever they hold. *)
Lemma focus_keywords_prompt kw startDate endDate :
  focus_keywords
    (buildPrompt (topicFocusClause kw)
       (formatDate startDate) (formatDate endDate)) = Some kw.
Proof.
  rewrite prompt_pieces. unfold focus_keywords.
  rewrite (after_first_app topicMarker promptHead)
    by (vm_compute; reflexivity).
  rewrite (after_first_app [openingQuote]
             (js " 文章内容必须聚焦于以下一个或多个主题："))
    by (vm_compute; reflexivity).
  apply before_last_app.
  assert (Hd : forall d, ~ In closingQuote (formatDate d)).
  { intros d H. assert (Hc := formatDate_chars d).
    rewrite Forall_forall in Hc. apply Hc in H. unfold closingQuote in H.
    lia. }
  assert (Hc : forall piece,
             existsb (N.eqb closingQuote) piece = false ->
             ~ In closingQuote piece)
    by (intros piece; apply existsb_not_in).
  apply not_in_cons. split; [discriminate|].
  apply not_in_pieces; [apply Hc; vm_compute; reflexivity|].
  apply not_in_pieces; [apply Hd|].
  apply not_in_pieces; [apply Hc; vm_compute; reflexivity|].
  apply not_in_pieces; [apply Hd|apply Hc; vm_compute; reflexivity].
Qed.

Lemma includes_refl (l : jsstring) : includes l l = true.
Proof.
  assert (H : starts_with l l = true)
    by (rewrite <- (app_nil_r l) at 2; apply starts_with_self).
  destruct l; simpl in *; [reflexivity|]. now rewrite H.
Qed.

Lemma quoted_in_prompt kw startDate endDate :
  includes (quoted kw)
    (buildPrompt (topicFocusClause kw) startDate endDate) = true.
Proof.
  rewrite prompt_pieces. do 3 apply includes_app_r.
  assert (E : forall r,
             [openingQuote] ++ kw ++ closingQuote :: fullStop :: r =
             quoted kw ++ r)
    by (intros r; unfold quoted; now rewrite <- !app_assoc).
  rewrite E. apply includes_app_l, includes_refl.
Qed.

Lemma combineKeywords_listed (subTopic translated : jsstring) :
  combineKeywords subTopic translated = listed_keywords subTopic translated.
Proof. destruct translated; reflexivity. Qed.

End ServiceFacts.

(* ================================================================== *)
(** * The claims of the specification *)
(* ================================================================== *)

Import RegexFacts ParserFacts DedupFacts ServiceFacts.

(** ** The response parser *)

Lemma markdown_block_well_formed : well_formed markdown_block.
Proof. constructor; vm_compute; congruence. Qed.

Lemma sample_blocks_well_formed : Forall well_formed sample_blocks.
Proof. repeat constructor; vm_compute; congruence. Qed.

(** C1, as the specification states it, fails: for the block
    [markdown_block] group 3 captures the markdown link, the article that
    is returned has the bare URL as its source, and that is not the
    trimmed capture.  And a block with a blank field, here
    [blank_title_block], yields no article at all. *)
Lemma parse_source_is_not_trimmed_capture :
  well_formed markdown_block /\
  option_map m_caps (search articleRegex 0 (block_text markdown_block)) =
    Some [(3%nat, js "[链接](https://a.b/c)"); (2%nat, js "S"); (1%nat, js "T")] /\
  parseArticleResponse (block_text markdown_block) =
    Returned [mkArticle (js "T") (js "S") (js "https://a.b/c")] /\
  trim (js "[链接](https://a.b/c)") = js "[链接](https://a.b/c)" /\
  parseArticleResponse (block_text markdown_block) <>
    Returned [trimmed_article markdown_block] /\
  block_text blank_title_block = js "标题： 摘要：S来源：https://a.b/c" /\
  parseArticleResponse (block_text blank_title_block) = Returned [].
Proof.
  split; [exact markdown_block_well_formed|].
  split; [vm_compute; reflexivity|].
  split; [vm_compute; reflexivity|].
  split; [vm_compute; reflexivity|].
  split; [vm_compute; discriminate|].
  split; vm_compute; reflexivity.
Qed.

(** C1, amended: a text made of N well-formed blocks (either colon, any
    code units including line breaks in the fields, no field blank, no
    field holding the label that ends it), after any text without a title
    label, yields exactly N articles, in the order of the blocks; title
    and summary are the trimmed field bodies, and the source is the first
    URL in the trimmed source body or, without one, the trimmed source
    body. *)
Theorem parse_well_formed_blocks (preamble : jsstring) (bs : list block) :
  has_label label_title preamble = false ->
  Forall well_formed bs ->
  parseArticleResponse (preamble ++ blocks_text bs) =
  Returned (map article_of bs).
Proof.
  intros Hpre Hwf. unfold parseArticleResponse.
  rewrite parse_loop_preamble by auto using blocks_text_end.
  rewrite parse_loop_blocks; [reflexivity|exact Hwf|].
  assert (H := blocks_text_length bs). rewrite length_app. lia.
Qed.

Lemma parse_well_formed_blocks_witness :
  Forall well_formed sample_blocks /\
  parseArticleResponse (blocks_text sample_blocks) =
  Returned (map article_of sample_blocks) /\
  length (map article_of sample_blocks) = 2%nat.
Proof.
  split; [exact sample_blocks_well_formed|].
  split; [|reflexivity].
  apply (parse_well_formed_blocks [] sample_blocks eq_refl).
  exact sample_blocks_well_formed.
Defined.

(** Every article that is returned has its three fields filled. *)
Lemma parse_articles_complete text l :
  parseArticleResponse text = Returned l -> Forall complete l.
Proof.
  intros H. apply parse_loop_emitted in H; [|constructor].
  eapply Forall_impl; [|exact H]. intros a [m1 [m2 [m3 [_ Hc]]]]. exact Hc.
Qed.

(** C2 fails on the code: in [text_missing_source] the first block has no
    source label before the next title label, yet its title is returned,
    in an article whose summary has swallowed the title and the summary
    of the block that follows, and that block is lost.  Groups 1 and 2
    are not bounded by the next title label the way group 3 is. *)
Theorem parse_merges_block_without_source :
  text_missing_source = js "标题:A摘要:B标题:C摘要:D来源:E" /\
  parseArticleResponse text_missing_source =
  Returned [mkArticle (js "A") (js "B标题:C摘要:D") (js "E")].
Proof. split; vm_compute; reflexivity. Qed.

(** C4: the source of an article is [extractSource] of the trimmed third
    capture.  [extractSource s] is the leftmost URL of [s], taken up to
    the end of [s] or the first code unit outside the class (white space,
    quotes, closing parenthesis, angle brackets), and it is [s] itself
    when [s] holds no URL.  The example of the specification yields the
    URL without the parenthesis. *)
Theorem source_is_first_url :
  (forall s,
     (exists pre u post,
        s = pre ++ u ++ post /\ is_url u /\ stops_here post /\
        (forall pre' u' post',
           s = pre' ++ u' ++ post' -> is_url u' ->
           (length pre <= length pre')%nat) /\
        extractSource s = u)
     \/
     ((forall pre' u' post', s = pre' ++ u' ++ post' -> ~ is_url u') /\
      extractSource s = s)) /\
  (forall fuel lastIndex rest acc m,
     search articleRegex lastIndex rest = Some m ->
     exists m1 m2 m3,
       m_caps m = [(3%nat, m3); (2%nat, m2); (1%nat, m1)] /\
       parse_loop (S fuel) lastIndex rest acc =
       parse_loop fuel (m_end m) (m_after m)
         (if truthy (trim m1) && truthy (trim m2)
             && truthy (extractSource (trim m3))
          then acc ++ [mkArticle (trim m1) (trim m2) (extractSource (trim m3))]
          else acc)) /\
  extractSource (trim source_with_url) = js "https://example.com/paper?x=1" /\
  parseArticleResponse text_with_url =
  Returned [mkArticle (js "T") (js "S") (js "https://example.com/paper?x=1")].
Proof.
  split; [|split; [|split; vm_compute; reflexivity]].
  - intros s. unfold extractSource.
    destruct (search urlRegex 0 s) as [m|] eqn:E.
    + left. destruct (url_search_some _ _ E) as [pre [post [H1 [H2 [H3 H4]]]]].
      exists pre, (m_text m), post. auto.
    + right. split; [|reflexivity]. now apply url_search_none.
  - intros fuel lastIndex rest acc m E.
    destruct (search_article _ _ _ E) as [b [Hc _]].
    exists (b_title b), (b_summary b), (b_source b). split; [exact Hc|].
    apply (parse_loop_step _ _ _ _ _ _ E Hc).
Qed.

(** C5: the parser returns a list for every text, it neither throws nor
    loops; the fuel of the loop plays no part beyond the length of the
    text; a text without a match, for instance one without any title
    label, yields the empty list. *)
Theorem parse_total :
  (forall text, exists l, parseArticleResponse text = Returned l) /\
  (forall text fuel,
     (length text < fuel)%nat ->
     parse_loop fuel 0 text [] = parseArticleResponse text) /\
  (forall text,
     search articleRegex 0 text = None ->
     parseArticleResponse text = Returned []) /\
  (forall text,
     has_label label_title text = false ->
     parseArticleResponse text = Returned []) /\
  parseArticleResponse [] = Returned [] /\
  parseArticleResponse (js "来源：x 摘要：y 标题 z") = Returned [].
Proof.
  split; [exact parse_returns|]. split; [|split; [|split; [|split]]].
  - intros text fuel Hf. apply parse_loop_fuel; [exact Hf|lia].
  - intros text E. unfold parseArticleResponse. simpl. now rewrite E.
  - intros text H. unfold parseArticleResponse. simpl.
    now rewrite search_without_title.
  - reflexivity.
  - vm_compute. reflexivity.
Qed.

(** C10: a source that URL extraction has replaced begins with the
    lower-case scheme and holds no white space, quote, closing
    parenthesis or angle bracket; a URL is cut at the first such code
    unit; a text without lower-case [http] is kept as it is. *)
Theorem extracted_url_shape :
  (forall s m,
     search urlRegex 0 s = Some m ->
     extractSource s = m_text m /\
     (starts_with (js "http://") (m_text m) = true \/
      starts_with (js "https://") (m_text m) = true) /\
     Forall (fun c => is_space c = false /\ c <> 34 /\ c <> 39 /\ c <> 41
                      /\ c <> 60 /\ c <> 62) (m_text m)) /\
  (forall text l a,
     parseArticleResponse text = Returned l -> In a l ->
     exists m3,
       source a = extractSource (trim m3) /\
       ((search urlRegex 0 (trim m3) = None /\ source a = trim m3) \/
        ((starts_with (js "http://") (source a) = true \/
          starts_with (js "https://") (source a) = true) /\
         Forall (fun c => is_space c = false /\ c <> 34 /\ c <> 39
                          /\ c <> 41 /\ c <> 60 /\ c <> 62) (source a)))) /\
  (forall u c rest,
     is_url u -> url_char c = false -> extractSource (u ++ c :: rest) = u) /\
  (forall s, includes (js "http") s = false -> extractSource s = s) /\
  extractSource (js "https://a.b/c(d)e") = js "https://a.b/c(d" /\
  parseArticleResponse text_uppercase_scheme =
  Returned [mkArticle (js "T") (js "S") (js "HTTPS://EXAMPLE.COM/A")].
Proof.
  assert (Hshape : forall s m,
    search urlRegex 0 s = Some m ->
    extractSource s = m_text m /\
    (starts_with (js "http://") (m_text m) = true \/
     starts_with (js "https://") (m_text m) = true) /\
    Forall (fun c => is_space c = false /\ c <> 34 /\ c <> 39 /\ c <> 41
                     /\ c <> 60 /\ c <> 62) (m_text m)).
  { intros s m E. unfold extractSource. rewrite E. split; [reflexivity|].
    destruct (url_search_some _ _ E) as [pre [post [_ [Hu _]]]].
    destruct (is_url_shape _ Hu) as [Hs Hall]. split; [exact Hs|].
    eapply Forall_impl; [|exact Hall]. exact url_char_excludes. }
  split; [exact Hshape|].
  split; [|split; [|split; [|split; vm_compute; reflexivity]]].
  - intros text l a H Hin. apply parse_loop_emitted in H; [|constructor].
    rewrite Forall_forall in H. destruct (H a Hin) as [m1 [m2 [m3 [-> _]]]].
    exists m3. split; [reflexivity|]. simpl source.
    destruct (search urlRegex 0 (trim m3)) as [m|] eqn:E.
    + right. destruct (Hshape _ _ E) as [-> Hs]. exact Hs.
    + left. split; [reflexivity|]. unfold extractSource. now rewrite E.
  - exact extractSource_stops.
  - intros s H. unfold extractSource. now rewrite search_without_http.
Qed.

(** ** The deduplication step *)

(** C3, as the specification states it, fails: of two entries with the
    same uri the one that is kept carries the title of the second. *)
Lemma dedup_keeps_last_title :
  dedupSources duplicate_sources = [mkSource (js "https://a.org") (js "second")] /\
  first_with (js "https://a.org") duplicate_sources =
    Some (mkSource (js "https://a.org") (js "first")) /\
  js "second" <> js "first".
Proof.
  split; [vm_compute; reflexivity|].
  split; [vm_compute; reflexivity|].
  vm_compute. discriminate.
Qed.

(** C3, amended: the deduplicated sequence is unique by uri, lists the
    non-empty uris in the order they are first seen, holds no entry with
    an empty uri, and for each uri holds the entry that occurs last with
    it in the input (so the title of the last occurrence). *)
Theorem dedup_sources_spec (l : list GroundingSource) :
  NoDup (map uri (dedupSources l)) /\
  map uri (dedupSources l) =
    first_seen (filter truthy (map uri l)) /\
  (forall s, In s (dedupSources l) ->
     uri s <> [] /\ last_with (uri s) l = Some s).
Proof.
  unfold dedupSources. rewrite uniqueSources_uris.
  assert (E : map uri (withUri l) = filter truthy (map uri l)).
  { unfold withUri. induction l as [|x l IH]; simpl; [reflexivity|].
    destruct (truthy (uri x)); simpl; now rewrite IH. }
  rewrite E. split; [apply first_seen_NoDup|]. split; [reflexivity|].
  intros s Hin.
  assert (Hu : uri s <> []).
  { assert (H : In (uri s) (map uri (uniqueSources (withUri l))))
      by now apply in_map.
    rewrite uniqueSources_uris, first_seen_in, E in H.
    apply filter_In in H. destruct H as [_ H]. now apply truthy_true. }
  split; [exact Hu|].
  rewrite <- (last_with_withUri _ l Hu). now apply uniqueSources_last.
Qed.

(** C9: a sequence whose uris are non-empty and pairwise distinct is
    returned unchanged, in order and in contents. *)
Theorem dedup_unique_unchanged (l : list GroundingSource) :
  NoDup (map uri l) ->
  Forall (fun s => uri s <> []) l ->
  dedupSources l = l.
Proof.
  intros Hnd Hne. unfold dedupSources.
  rewrite withUri_id by exact Hne. now apply uniqueSources_NoDup_id.
Qed.

Lemma dedup_unique_unchanged_witness :
  dedupSources distinct_sources = distinct_sources.
Proof.
  apply (dedup_unique_unchanged distinct_sources).
  - repeat constructor; simpl; intuition discriminate.
  - repeat constructor; discriminate.
Defined.

(** ** The service *)

(** C6: [translateKeywords] returns for every answer of the service; when
    the service rejects the request, or answers without a text, it
    returns the empty string and logs one warning.  When the translation
    fails in either way inside [fetchDigitalEconomyArticles], the call
    goes on to the main query, and the keywords its prompt names between
    the quotation marks of the topic-focus clause are the original ones
    and nothing else; once the main query is answered the call returns
    the parsed articles and the deduplicated sources, and the only error
    it can log is that of the main query. *)
Theorem translation_failure_is_absorbed
    (ai : request -> exn + response) (log : list event) :
  (forall keywords,
     exists s evs,
       translateKeywords ai keywords log = (Returned s, log ++ evs)) /\
  (forall keywords cause,
     translation_fails ai keywords cause ->
     translateKeywords ai keywords log =
     (Returned [], log ++ [Generate (translateRequest keywords);
                           ConsoleWarn cause])) /\
  (forall today oneWeekAgo filters cause,
     subTopic filters <> [] ->
     translation_fails ai (subTopic filters) cause ->
     exists prompt,
       focus_keywords prompt = Some (subTopic filters) /\
       includes (quoted (subTopic filters)) prompt = true /\
       prompt = buildPrompt (topicFocusClause (subTopic filters))
                  (formatDate oneWeekAgo) (formatDate today) /\
       (exists after,
          snd (fetchDigitalEconomyArticles ai today oneWeekAgo filters log) =
          log ++ [Generate (translateRequest (subTopic filters));
                  ConsoleWarn cause;
                  Generate (queryRequest prompt)] ++ after /\
          (after = [] \/ exists e, after = [ConsoleError e])) /\
       (forall resp mapped,
          ai (queryRequest prompt) = inr resp ->
          mapChunks (chunksOf resp) = Returned mapped ->
          exists arts,
            parseArticleResponse (toString (text resp)) = Returned arts /\
            fetchDigitalEconomyArticles ai today oneWeekAgo filters log =
            (Returned (mkResult arts (dedupSources mapped)),
             log ++ [Generate (translateRequest (subTopic filters));
                     ConsoleWarn cause;
                     Generate (queryRequest prompt)]))).
Proof.
  assert (Hfail : forall keywords cause,
            translation_fails ai keywords cause ->
            translated ai keywords = [] /\
            translate_events ai keywords =
            [Generate (translateRequest keywords); ConsoleWarn cause]).
  { intros keywords cause [H|[resp [H [Ht ->]]]];
      unfold translated, translate_events; rewrite H; [|rewrite Ht];
      split; reflexivity. }
  split; [|split].
  - intros keywords. rewrite translateKeywords_run. eauto.
  - intros keywords cause H. rewrite translateKeywords_run.
    destruct (Hfail _ _ H) as [-> ->]. reflexivity.
  - intros today oneWeekAgo filters cause Hs H.
    destruct (Hfail _ _ H) as [Ht He].
    assert (Hp : promptFor ai today oneWeekAgo filters =
                 buildPrompt (topicFocusClause (subTopic filters))
                   (formatDate oneWeekAgo) (formatDate today)).
    { unfold promptFor, topicFocusFor.
      now rewrite (proj2 (truthy_true _) Hs), Ht. }
    assert (Hq : query_events ai today oneWeekAgo filters =
                 [Generate (translateRequest (subTopic filters));
                  ConsoleWarn cause;
                  Generate (queryRequest
                    (buildPrompt (topicFocusClause (subTopic filters))
                       (formatDate oneWeekAgo) (formatDate today)))]).
    { unfold query_events.
      now rewrite (proj2 (truthy_true _) Hs), He, Hp. }
    eexists. split; [apply focus_keywords_prompt|].
    split; [apply quoted_in_prompt|]. split; [reflexivity|]. split.
    + destruct (fetch_events ai today oneWeekAgo filters log)
        as [after [E Ha]].
      exists after. split; [|exact Ha]. now rewrite E, Hq.
    + intros resp mapped Hr Hm.
      destruct (parse_returns (toString (text resp))) as [arts Ha].
      exists arts. split; [exact Ha|].
      rewrite fetch_run. cbv zeta. rewrite Hp, Hr, Ha, Hm, Hq. reflexivity.
Qed.

Lemma translation_failure_is_absorbed_witness :
  fetchDigitalEconomyArticles ai_translation_down today_sample
    week_ago_sample (mkFilters (js "人工智能")) [] =
  (Returned (mkResult [mkArticle (js "T") (js "S") (js "https://a.org/x")]
               [mkSource (js "https://a.org/x") []]),
   [Generate (translateRequest (js "人工智能"));
    ConsoleWarn (ServiceError (js "503"));
    Generate (queryRequest
      (buildPrompt (topicFocusClause (js "人工智能"))
         (js "2026-10-25") (js "2026-11-01")))]) /\
  fetchDigitalEconomyArticles ai_translation_silent today_sample
    week_ago_sample (mkFilters (js "人工智能")) [] =
  (Returned (mkResult [mkArticle (js "T") (js "S") (js "https://a.org/x")]
               [mkSource (js "https://a.org/x") []]),
   [Generate (translateRequest (js "人工智能"));
    ConsoleWarn TypeError;
    Generate (queryRequest
      (buildPrompt (topicFocusClause (js "人工智能"))
         (js "2026-10-25") (js "2026-11-01")))]).
Proof.
  split.
  - destruct (proj2 (proj2
      (translation_failure_is_absorbed ai_translation_down []))
      today_sample week_ago_sample (mkFilters (js "人工智能"))
      (ServiceError (js "503"))
      ltac:(vm_compute; discriminate) (or_introl eq_refl))
      as [prompt [_ [_ [-> [_ Hret]]]]].
    destruct (Hret answer
      [mkSource (js "https://a.org/x") (js "A");
       mkSource (js "https://a.org/x") []] eq_refl eq_refl)
      as [arts [Ha Hf]].
    vm_compute in Ha. inversion Ha; subst arts. exact Hf.
  - destruct (proj2 (proj2
      (translation_failure_is_absorbed ai_translation_silent []))
      today_sample week_ago_sample (mkFilters (js "人工智能")) TypeError
      ltac:(vm_compute; discriminate)
      (or_intror (ex_intro _ (mkResponse None None)
                    (conj eq_refl (conj eq_refl eq_refl)))))
      as [prompt [_ [_ [-> [_ Hret]]]]].
    destruct (Hret answer
      [mkSource (js "https://a.org/x") (js "A");
       mkSource (js "https://a.org/x") []] eq_refl eq_refl)
      as [arts [Ha Hf]].
    vm_compute in Ha. inversion Ha; subst arts. exact Hf.
Defined.

(** C7: the prompt of the main query holds the heading of the topic-focus
    clause exactly when [subTopic] is not empty.  Then the keywords the
    prompt names between the quotation marks of the clause are the
    original ones, followed by a comma, a space and the translated ones
    when [translateKeywords] returned any, and nothing else; the prompt
    holds them quoted and closed by a full stop.  With an empty
    [subTopic] the prompt names no keywords and nothing stands in the
    place of the clause.  The headings of the six other clauses occur
    in every prompt.  The main query is the only request with the
    search tool. *)
Theorem topic_focus_clause_iff
    (ai : request -> exn + response) (today oneWeekAgo : Date)
    (filters : FilterOptions) (log : list event) :
  exists prompt before after,
    snd (fetchDigitalEconomyArticles ai today oneWeekAgo filters log) =
      log ++ before ++ Generate (queryRequest prompt) :: after /\
    (forall r, In (Generate r) before -> googleSearch r = false) /\
    (forall r, ~ In (Generate r) after) /\
    (includes topicMarker prompt = true <-> subTopic filters <> []) /\
    (subTopic filters <> [] ->
     exists translatedKeywords evs,
       translateKeywords ai (subTopic filters) log =
         (Returned translatedKeywords, log ++ evs) /\
       focus_keywords prompt =
         Some (listed_keywords (subTopic filters) translatedKeywords) /\
       includes
         (quoted (listed_keywords (subTopic filters) translatedKeywords))
         prompt = true /\
       prompt =
       buildPrompt
         (topicFocusClause
            (if truthy translatedKeywords
             then subTopic filters ++ js ", " ++ translatedKeywords
             else subTopic filters))
         (formatDate oneWeekAgo) (formatDate today)) /\
    (subTopic filters = [] ->
     focus_keywords prompt = None /\
     prompt = buildPrompt [] (formatDate oneWeekAgo) (formatDate today)) /\
    Forall (fun m => includes m prompt = true) otherMarkers.
Proof.
  destruct (fetch_events ai today oneWeekAgo filters log) as [after [E Ha]].
  exists (promptFor ai today oneWeekAgo filters),
    (if truthy (subTopic filters)
     then translate_events ai (subTopic filters) else []),
    after.
  split; [|split; [|split; [|split; [|split; [|split]]]]].
  - rewrite E. unfold query_events. now rewrite <- !app_assoc.
  - intros r. destruct (truthy (subTopic filters)); [|intros []].
    unfold translate_events. intros [H|H]; [now inversion H|].
    destruct (ai _) as [e|resp]; [destruct H as [H|[]]; discriminate|].
    destruct (text resp); [destruct H|destruct H as [H|[]]; discriminate].
  - intros r H. destruct Ha as [->|[e ->]]; [destruct H|].
    destruct H as [H|[]]. discriminate.
  - unfold promptFor, topicFocusFor.
    destruct (subTopic filters) as [|c s] eqn:Es; simpl truthy; cbv iota.
    + rewrite prompt_without_topic. split; [discriminate|congruence].
    + rewrite prompt_with_topic. split; [discriminate|reflexivity].
  - intros Hs. exists (translated ai (subTopic filters)),
      (translate_events ai (subTopic filters)).
    split; [apply translateKeywords_run|].
    unfold promptFor, topicFocusFor.
    rewrite (proj2 (truthy_true _) Hs), combineKeywords_listed.
    split; [apply focus_keywords_prompt|].
    split; [apply quoted_in_prompt|].
    now rewrite <- combineKeywords_listed.
  - intros Hs. unfold promptFor, topicFocusFor. rewrite Hs. cbn [truthy].
    split; [|reflexivity].
    unfold focus_keywords.
    now rewrite after_first_none by apply prompt_without_topic.
  - apply prompt_other_clauses.
Qed.

(** The end-to-end scenario of the specification: with the sub-topic
    [人工智能] translated to [artificial intelligence] the prompt holds both,
    joined by a comma and a space. *)
Lemma prompt_lists_both_keywords startDate endDate :
  includes (js "人工智能, artificial intelligence")
    (buildPrompt
       (topicFocusClause
          (combineKeywords (js "人工智能") (js "artificial intelligence")))
       startDate endDate) = true.
Proof.
  unfold buildPrompt. apply includes_app_r, includes_app_l.
  vm_compute. reflexivity.
Qed.

(** C8: a call either returns a result or throws the one generic error
    [fetchFailedMessage]; it throws it after logging the cause once, and
    logs no error otherwise.  A rejected main query and a grounding
    chunk that is null both end in the generic error; every other
    answer ends in a result. *)
Theorem fetch_error_contract
    (ai : request -> exn + response) (today oneWeekAgo : Date)
    (filters : FilterOptions) (log : list event) :
  ((exists result evs,
      fetchDigitalEconomyArticles ai today oneWeekAgo filters log =
        (Returned result, log ++ evs) /\
      existsb is_console_error evs = false)
   \/
   (exists cause evs,
      fetchDigitalEconomyArticles ai today oneWeekAgo filters log =
        (Thrown (Error fetchFailedMessage),
         log ++ evs ++ [ConsoleError cause]) /\
      existsb is_console_error evs = false)) /\
  (forall e,
     ai (queryRequest (promptFor ai today oneWeekAgo filters)) = inl e ->
     fetchDigitalEconomyArticles ai today oneWeekAgo filters log =
     (Thrown (Error fetchFailedMessage),
      log ++ query_events ai today oneWeekAgo filters ++ [ConsoleError e])) /\
  (forall resp,
     ai (queryRequest (promptFor ai today oneWeekAgo filters)) = inr resp ->
     In ChunkNull (chunksOf resp) ->
     fetchDigitalEconomyArticles ai today oneWeekAgo filters log =
     (Thrown (Error fetchFailedMessage),
      log ++ query_events ai today oneWeekAgo filters
          ++ [ConsoleError TypeError])) /\
  (forall resp mapped,
     ai (queryRequest (promptFor ai today oneWeekAgo filters)) = inr resp ->
     mapChunks (chunksOf resp) = Returned mapped ->
     exists arts,
       parseArticleResponse (toString (text resp)) = Returned arts /\
       fetchDigitalEconomyArticles ai today oneWeekAgo filters log =
       (Returned (mkResult arts (dedupSources mapped)),
        log ++ query_events ai today oneWeekAgo filters)).
Proof.
  assert (Hq := query_events_quiet ai today oneWeekAgo filters).
  split; [|split; [|split]].
  - rewrite fetch_run. cbv zeta.
    destruct (ai _) as [e|resp]; [right; eauto|].
    destruct (parse_returns (toString (text resp))) as [arts ->].
    destruct (mapChunks (chunksOf resp)) as [mapped|e|] eqn:Em.
    + left. eauto.
    + right. eauto.
    + now apply mapChunks_not_diverged in Em.
  - intros e H. rewrite fetch_run. cbv zeta. now rewrite H.
  - intros resp H Hnull. rewrite fetch_run. cbv zeta. rewrite H.
    destruct (parse_returns (toString (text resp))) as [arts ->].
    now rewrite (mapChunks_null _ Hnull).
  - intros resp mapped H Hm.
    destruct (parse_returns (toString (text resp))) as [arts Ha].
    exists arts. split; [exact Ha|].
    rewrite fetch_run. cbv zeta. now rewrite H, Ha, Hm.
Qed.

Lemma fetch_error_contract_witness :
  fetchDigitalEconomyArticles ai_all_down today_sample week_ago_sample
    (mkFilters []) [] =
  (Thrown (Error fetchFailedMessage),
   [] ++ query_events ai_all_down today_sample week_ago_sample (mkFilters [])
      ++ [ConsoleError (ServiceError (js "503"))]).
Proof.
  exact (proj1 (proj2
    (fetch_error_contract ai_all_down today_sample week_ago_sample
       (mkFilters []) []))
    (ServiceError (js "503")) eq_refl).
Defined.

(* ================================================================== *)
(** * Further properties of the parser *)
(* ================================================================== *)

Module ParserMore.


(** ** Trimmed fields *)

Lemma dropWhile_fix p (s : jsstring) :
  match s with [] => True | c :: _ => p c = false end -> dropWhile p s = s.
Proof. destruct s as [|c s]; simpl; [reflexivity|]. now intros ->. Qed.

Lemma trim_trimmed s : trimmed (trim s).
Proof.
  unfold trimmed, trim, trimEnd, trimStart.
  set (A := dropWhile is_space s).
  set (B := dropWhile is_space (rev A)).
  split.
  - apply dropWhile_fix.
    destruct (rev B) as [|c r] eqn:E; [exact I|].
    assert (HA : rev A = takeWhile is_space (rev A) ++ B)
      by (symmetry; apply takeWhile_dropWhile).
    apply (f_equal (@rev N)) in HA.
    rewrite rev_involutive, rev_app_distr, E in HA.
    assert (H := dropWhile_head is_space s). fold A in H.
    rewrite HA in H. exact H.
  - rewrite rev_involutive. apply dropWhile_fix.
    apply dropWhile_head.
Qed.

Lemma trimmed_trim s : trimmed s -> trim s = s.
Proof.
  intros [H1 H2]. unfold trim, trimEnd, trimStart.
  now rewrite H1, H2, rev_involutive.
Qed.

Lemma no_space_trimmed s :
  Forall (fun c => is_space c = false) s -> trimmed s.
Proof.
  intros H. split; apply dropWhile_fix.
  - destruct H; [exact I|assumption].
  - apply Forall_rev in H. destruct H; [exact I|assumption].
Qed.

Lemma extractSource_trimmed s : trimmed s -> trimmed (extractSource s).
Proof.
  intros Hs. unfold extractSource.
  destruct (search urlRegex 0 s) as [m|] eqn:E; [|exact Hs].
  apply url_search_some in E. destruct E as [_ [_ [_ [Hu _]]]].
  apply no_space_trimmed. destruct (is_url_shape _ Hu) as [_ Hall].
  eapply Forall_impl; [|exact Hall].
  intros c Hc. now apply url_char_excludes in Hc.
Qed.

(** ** The shape of a match during the search *)

Lemma skipn_skipn_add {A} (i j : nat) : forall l : list A,
  skipn j (skipn i l) = skipn (i + j) l.
Proof.
  induction i as [|i IH]; intros l; [reflexivity|].
  destruct l as [|a l]; [now destruct j|]. apply IH.
Qed.

Lemma search_article_shape pos rest m :
  search articleRegex pos rest = Some m ->
  exists i b after,
    (i <= length rest)%nat /\
    skipn i rest = block_text b ++ after /\
    colon (b_colon1 b) = true /\ colon (b_colon2 b) = true /\
    colon (b_colon3 b) = true /\ block_end after = true /\
    m = MatchResult (pos + i) (pos + i + length (block_text b)) after
          (block_text b)
          [(3%nat, b_source b); (2%nat, b_summary b); (1%nat, b_title b)].
Proof.
  intros E. apply search_some in E.
  destruct E as [i [y [Hi [Hy [_ Hm]]]]].
  apply article_match_inv in Hy.
  destruct Hy as [b [after [Hr [H1 [H2 [H3 [He Hy]]]]]]].
  exists i, b, after. repeat (split; [assumption|]).
  subst m y. cbn [st_pos st_rest st_caps]. f_equal.
  rewrite Hr.
  replace (pos + i + length (block_text b) - (pos + i))%nat
    with (length (block_text b)) by lia.
  apply firstn_app_exact.
Qed.

(** ** No more articles than title labels *)

Lemma count_label_cons lab c (s : jsstring) :
  count_label lab (c :: s) =
  ((if at_label lab (c :: s) then 1 else 0) + count_label lab s)%nat.
Proof. reflexivity. Qed.

Lemma count_label_tl lab c (s : jsstring) :
  (count_label lab s <= count_label lab (c :: s))%nat.
Proof. simpl. lia. Qed.

Lemma count_label_skipn lab : forall i (s : jsstring),
  (count_label lab (skipn i s) <= count_label lab s)%nat.
Proof.
  induction i as [|i IH]; intros s; [simpl; lia|].
  destruct s as [|c s]; [simpl; lia|].
  change (skipn (S i) (c :: s)) with (skipn i s).
  specialize (IH s). assert (H := count_label_tl lab c s). lia.
Qed.

Lemma count_label_block b after :
  colon (b_colon1 b) = true ->
  (S (count_label label_title after)
   <= count_label label_title (block_text b ++ after))%nat.
Proof.
  intros Hc. rewrite block_text_app.
  set (r := b_title b ++ _).
  assert (Hat : at_label label_title (label_title ++ b_colon1 b :: r) = true)
    by now apply at_label_app.
  assert (Hx : exists X, b_colon1 b :: r = X ++ after).
  { exists (b_colon1 b :: b_title b ++ label_summary ++ b_colon2 b
              :: b_summary b ++ label_source ++ b_colon3 b :: b_source b).
    unfold r. repeat (rewrite <- ?app_assoc, <- ?app_comm_cons).
    reflexivity. }
  destruct Hx as [X HX].
  assert (H2 := count_label_skipn label_title (length X) (b_colon1 b :: r)).
  rewrite HX, skipn_app_exact, <- HX in H2.
  rewrite label_title_units in *.
  change ([26631; 39064] ++ b_colon1 b :: r)
    with (26631 :: 39064 :: b_colon1 b :: r) in *.
  rewrite count_label_cons, Hat.
  assert (H1 := count_label_tl [26631; 39064] 39064 (b_colon1 b :: r)).
  lia.
Qed.

Lemma push_article_length m1 m2 m3 acc :
  (length (push_article m1 m2 m3 acc) <= S (length acc))%nat.
Proof.
  unfold push_article. destruct (_ && _); [|lia].
  rewrite length_app. simpl. lia.
Qed.

Lemma parse_loop_count : forall fuel pos rest acc l,
  parse_loop fuel pos rest acc = Returned l ->
  (length l <= length acc + count_label label_title rest)%nat.
Proof.
  induction fuel as [|fuel IH]; intros pos rest acc l; [discriminate|].
  destruct (search articleRegex pos rest) as [m|] eqn:E.
  - destruct (search_article_shape _ _ _ E)
      as [i [b [after [Hi [Hr [Hc [_ [_ [_ Hm]]]]]]]]].
    rewrite (parse_loop_step _ _ _ _ _ b E) by now subst m.
    subst m. cbn [m_end m_after]. intros H. apply IH in H.
    assert (H1 := push_article_length (b_title b) (b_summary b)
                    (b_source b) acc).
    assert (H2 := count_label_block b after Hc). rewrite <- Hr in H2.
    assert (H3 := count_label_skipn label_title i rest). lia.
  - simpl. rewrite E. intros H. inversion H. lia.
Qed.

(** ** Texts that lack a label *)

Lemma at_label_has_label lab : forall i (s : jsstring),
  at_label lab (skipn i s) = true -> has_label lab s = true.
Proof.
  intros i s H. destruct (has_label lab s) eqn:E; [reflexivity|].
  now rewrite (has_label_skipn lab s i E) in H.
Qed.

Lemma has_label_suffix lab : forall i (s : jsstring),
  has_label lab (skipn i s) = true -> has_label lab s = true.
Proof.
  induction i as [|i IH]; intros s H; [exact H|].
  destruct s as [|c s]; [exact H|].
  simpl. rewrite (IH s H). apply orb_true_r.
Qed.

Lemma has_label_inside lab (pre : jsstring) c post :
  colon c = true -> has_label lab (pre ++ lab ++ c :: post) = true.
Proof.
  intros Hc. apply (at_label_has_label lab (length pre)).
  rewrite skipn_app_exact. now apply at_label_app.
Qed.

Lemma search_needs_labels pos rest m :
  search articleRegex pos rest = Some m ->
  has_label label_title rest = true /\
  has_label label_summary rest = true /\
  has_label label_source rest = true.
Proof.
  intros E. destruct (search_article_shape _ _ _ E)
    as [i [b [after [Hi [Hr [Hc1 [Hc2 [Hc3 _]]]]]]]].
  rewrite block_text_app in Hr.
  split; [|split]; apply (has_label_suffix _ i); rewrite Hr.
  - now apply (has_label_inside label_title []).
  - now apply (has_label_inside label_summary
                 (label_title ++ b_colon1 b :: b_title b)).
  - assert (Ea : forall X,
      label_title ++ b_colon1 b :: b_title b ++
        label_summary ++ b_colon2 b :: b_summary b ++ X =
      (label_title ++ b_colon1 b :: b_title b ++
         label_summary ++ b_colon2 b :: b_summary b) ++ X).
    { intros X. repeat (rewrite <- ?app_assoc, <- ?app_comm_cons).
      reflexivity. }
    rewrite Ea. now apply has_label_inside.
Qed.

(** ** URL extraction is stable *)

Lemma takeWhile_whole p (s : jsstring) :
  Forall (fun x => p x = true) s ->
  takeWhile p s = s /\ dropWhile p s = [].
Proof.
  induction 1 as [|x s Hx _ [IH1 IH2]]; simpl; [auto|].
  rewrite Hx. split; congruence.
Qed.

Lemma url_match_whole pos u cs :
  is_url u ->
  rmatch urlRegex (MState pos u cs) (fun y => Some y) =
  Some (MState (pos + length u) [] cs).
Proof.
  intros [body [[Hu|Hu] [Hne Hall]]]; subst u;
    destruct body as [|b body]; try congruence;
    inversion Hall as [|? ? Hb Hall']; subst;
    destruct (takeWhile_whole url_char body Hall') as [Ht Hd];
    rewrite rmatch_urlRegex.
  - url_literals. simpl. rewrite Hb, star_greedy_all, Ht, Hd.
    do 2 f_equal. lia.
  - url_literals. simpl. rewrite Hb, star_greedy_all, Ht, Hd.
    do 2 f_equal. lia.
Qed.

Lemma extractSource_url u : is_url u -> extractSource u = u.
Proof.
  intros Hu. unfold extractSource.
  rewrite (search_here _ _ _ _ (url_match_whole 0 u [] Hu)).
  simpl. rewrite Nat.sub_0_r. apply firstn_all.
Qed.


(** ** Lazy groups stop at the first label *)

Lemma star_lazy_first p k cs y : forall rest pos,
  star_lazy p pos rest cs k = Some y ->
  exists i, (i <= length rest)%nat /\
    k (MState (pos + i) (skipn i rest) cs) = Some y /\
    forall j, (j < i)%nat ->
      k (MState (pos + j) (skipn j rest) cs) = None.
Proof.
  induction rest as [|c rest IH]; intros pos; simpl.
  - destruct (k (MState pos [] cs)) eqn:E; [|discriminate].
    intros H. exists 0%nat. rewrite Nat.add_0_r. simpl.
    split; [lia|]. split; [congruence|]. intros j Hj. lia.
  - destruct (k (MState pos (c :: rest) cs)) eqn:E.
    + intros H. exists 0%nat. rewrite Nat.add_0_r. simpl.
      split; [lia|]. split; [congruence|]. intros j Hj. lia.
    + destruct (p c); [|discriminate]. intros H.
      destruct (IH _ H) as [i [Hi [Hk Hmin]]]. exists (S i).
      rewrite Nat.add_succ_r. simpl. split; [lia|]. split; [exact Hk|].
      intros [|j] Hj; [now rewrite Nat.add_0_r|].
      rewrite Nat.add_succ_r. simpl. apply Hmin. lia.
Qed.

Lemma star_lazy_reaches k cs : forall d rest pos,
  (d <= length rest)%nat ->
  (exists y, k (MState (pos + d) (skipn d rest) cs) = Some y) ->
  exists y, star_lazy any pos rest cs k = Some y.
Proof.
  induction d as [|d IH]; intros rest pos Hd [y Hy].
  - rewrite Nat.add_0_r in Hy. exists y. now apply star_lazy_now.
  - destruct rest as [|c rest]; [simpl in Hd; lia|]. simpl.
    destruct (k (MState pos (c :: rest) cs)) as [y0|]; [now exists y0|].
    rewrite any_true. apply IH; [simpl in Hd; lia|].
    exists y. now rewrite Nat.add_succ_r in Hy.
Qed.

Lemma field_first lab n R pos rest cs k y :
  rmatch (fieldRegex lab n R) (MState pos rest cs) k = Some y ->
  exists c body rest',
    rest = lab ++ c :: body ++ rest' /\ colon c = true /\
    rmatch R (MState (pos + length lab + 1 + length body) rest'
                ((n, body) :: cs)) k = Some y /\
    forall j, (j < length body)%nat ->
      rmatch R (MState (pos + length lab + 1 + j) (skipn j (body ++ rest'))
                  ((n, firstn j (body ++ rest')) :: cs)) k = None.
Proof.
  rewrite rmatch_fieldRegex. destruct (at_label lab rest) eqn:E; [|discriminate].
  intros H. apply at_label_split in E. destruct E as [c [r [Hr Hc]]].
  apply star_lazy_first in H. destruct H as [i [Hi [H Hmin]]].
  cbn [st_pos st_rest st_caps] in H.
  assert (Hs : skipn (S (length lab)) rest = r)
    by (rewrite Hr; apply skipn_label).
  rewrite Hs in *.
  exists c, (firstn i r), (skipn i r).
  rewrite firstn_skipn, length_firstn, Nat.min_l by exact Hi.
  split; [exact Hr|]. split; [exact Hc|]. split.
  - replace (pos + length lab + 1 + i - (pos + length lab + 1))%nat
      with i in H by lia.
    exact H.
  - intros j Hj. specialize (Hmin j Hj). cbn [st_pos st_rest st_caps] in Hmin.
    replace (pos + length lab + 1 + j - (pos + length lab + 1))%nat
      with j in Hmin by lia.
    exact Hmin.
Qed.

(** The source field with the lookahead matches wherever the source
    label stands: the lazy run can always go on to the end of the input. *)
Lemma source_field_matches pos rest cs :
  at_label label_source rest = true ->
  exists y, rmatch (fieldRegex label_source 3 tailRegex)
              (MState pos rest cs) (fun y => Some y) = Some y.
Proof.
  intros H. rewrite rmatch_fieldRegex, H.
  apply (star_lazy_reaches _ _
           (length (skipn (S (length label_source)) rest))); [lia|].
  cbn [st_pos st_rest st_caps]. rewrite skipn_all.
  unfold tailRegex. rewrite rmatch_lookahead. simpl. eauto.
Qed.

(** The summary field with what follows matches wherever the summary
    label stands and a source label stands further on. *)
Lemma summary_field_matches pos rest cs c body rest' :
  rest = label_summary ++ c :: body ++ rest' -> colon c = true ->
  at_label label_source rest' = true ->
  exists y,
    rmatch (fieldRegex label_summary 2
              (fieldRegex label_source 3 tailRegex))
      (MState pos rest cs) (fun y => Some y) = Some y.
Proof.
  intros -> Hc Hs. rewrite rmatch_fieldRegex, at_label_app, skipn_label
    by exact Hc.
  apply (star_lazy_reaches _ _ (length body)).
  - rewrite length_app. lia.
  - cbn [st_pos st_rest st_caps]. rewrite skipn_app_exact.
    now apply source_field_matches.
Qed.

Lemma prefix_without_label lab : forall i (r : jsstring),
  (forall j, (j < i)%nat -> at_label lab (skipn j r) = false) ->
  has_label lab (firstn i r) = false.
Proof.
  induction i as [|i IH]; intros r H.
  - simpl. unfold at_label. destruct lab; reflexivity.
  - destruct r as [|c r].
    + simpl. unfold at_label. destruct lab; reflexivity.
    + cbn [firstn has_label]. apply orb_false_iff. split.
      * destruct (at_label lab (c :: firstn i r)) eqn:E; [|reflexivity].
        apply at_label_split in E. destruct E as [c' [r' [E Hc']]].
        assert (Hj := H 0%nat ltac:(lia)). cbn [skipn] in Hj.
        rewrite <- (firstn_skipn i r), app_comm_cons, E in Hj.
        rewrite <- app_assoc in Hj. cbn [app] in Hj.
        now rewrite at_label_app in Hj.
      * apply IH. intros j Hj. apply (H (S j)). lia.
Qed.


Lemma article_match_lazy pos rest cs y :
  rmatch articleRegex (MState pos rest cs) (fun y => Some y) = Some y ->
  exists t s r,
    st_caps y = (3%nat, r) :: (2%nat, s) :: (1%nat, t) :: cs /\
    has_label label_summary t = false /\
    has_label label_source s = false /\
    has_label label_title r = false.
Proof.
  rewrite articleRegex_fields. intros H.
  apply field_first in H. destruct H as [c1 [t [r1 [E1 [Hc1 [H Hmin1]]]]]].
  apply field_first in H. destruct H as [c2 [s [r2 [E2 [Hc2 [H Hmin2]]]]]].
  apply field_first in H. destruct H as [c3 [r [after [E3 [Hc3 [H Hmin3]]]]]].
  unfold tailRegex in H. rewrite rmatch_lookahead in H.
  destruct (block_end after); [|discriminate]. inversion H; subst y; clear H.
  exists t, s, r. split; [reflexivity|]. split; [|split].
  - rewrite <- (firstn_app_exact t r1). apply prefix_without_label.
    intros j Hj. destruct (at_label label_summary (skipn j (t ++ r1))) eqn:E;
      [|reflexivity].
    exfalso. apply at_label_split in E. destruct E as [c [X [EX Hc]]].
    set (d := (length t + length s - j)%nat).
    assert (Hr2 : skipn d X = r2).
    { assert (HX : X = skipn (j + 3) (t ++ r1)).
      { rewrite <- skipn_skipn_add, EX.
        apply (skipn_label label_summary c X). }
      rewrite HX, skipn_skipn_add, E2.
      assert (Ea : t ++ label_summary ++ c2 :: s ++ r2
                   = (t ++ label_summary ++ c2 :: s) ++ r2)
        by (repeat (rewrite <- ?app_assoc, <- ?app_comm_cons); reflexivity).
      rewrite Ea.
      replace (j + 3 + d)%nat with (length (t ++ label_summary ++ c2 :: s)).
      - apply skipn_app_exact.
      - rewrite label_summary_units.
        repeat (rewrite ?length_app; cbn [length]). unfold d. lia. }
    assert (Hd : (d <= length X)%nat).
    { apply (f_equal (@length N)) in Hr2. rewrite length_skipn in Hr2.
      rewrite E3 in Hr2. rewrite length_app in Hr2. simpl in Hr2. lia. }
    destruct (summary_field_matches
                (pos + length label_title + 1 + j) (skipn j (t ++ r1))
                ((1%nat, firstn j (t ++ r1)) :: cs) c (firstn d X) (skipn d X))
      as [y' Hy'].
    + now rewrite firstn_skipn.
    + exact Hc.
    + rewrite Hr2, E3. now apply at_label_app.
    + rewrite (Hmin1 j Hj) in Hy'. discriminate.
  - rewrite <- (firstn_app_exact s r2). apply prefix_without_label.
    intros j Hj. destruct (at_label label_source (skipn j (s ++ r2))) eqn:E;
      [|reflexivity].
    exfalso.
    destruct (source_field_matches
                (pos + length label_title + 1 + length t
                 + length label_summary + 1 + j) (skipn j (s ++ r2))
                ((2%nat, firstn j (s ++ r2)) :: (1%nat, t) :: cs) E)
      as [y' Hy'].
    rewrite (Hmin2 j Hj) in Hy'. discriminate.
  - rewrite <- (firstn_app_exact r after). apply prefix_without_label.
    intros j Hj. specialize (Hmin3 j Hj). unfold tailRegex in Hmin3.
    rewrite rmatch_lookahead in Hmin3. unfold block_end in Hmin3.
    destruct (at_label label_title (skipn j (r ++ after)));
      [discriminate|reflexivity].
Qed.

Lemma search_article_lazy pos rest m :
  search articleRegex pos rest = Some m ->
  exists t s r,
    m_caps m = [(3%nat, r); (2%nat, s); (1%nat, t)] /\
    has_label label_summary t = false /\
    has_label label_source s = false /\
    has_label label_title r = false.
Proof.
  intros E. apply search_some in E.
  destruct E as [i [y [_ [Hy [_ Hm]]]]].
  apply article_match_lazy in Hy. subst m. exact Hy.
Qed.

(** ** A part of a text without a label holds none either *)

Lemma at_label_app_l lab (s t : jsstring) :
  at_label lab s = true -> at_label lab (s ++ t) = true.
Proof.
  intros H. apply at_label_split in H. destruct H as [c [r [-> Hc]]].
  rewrite <- app_assoc. cbn [app]. now apply at_label_app.
Qed.

Lemma has_label_app_l lab (s t : jsstring) :
  has_label lab s = true -> has_label lab (s ++ t) = true.
Proof.
  induction s as [|c s IH]; simpl; intros H; apply orb_true_iff in H;
    destruct H as [H|H]; try discriminate.
  - unfold at_label in H. destruct lab; simpl in H; discriminate.
  - apply orb_true_iff. left.
    now apply (at_label_app_l lab (c :: s) t).
  - apply orb_true_iff. right. auto.
Qed.

Lemma has_label_app_r lab (p s : jsstring) :
  has_label lab s = true -> has_label lab (p ++ s) = true.
Proof.
  intros H. induction p as [|c p IH]; simpl; [exact H|].
  rewrite IH. apply orb_true_r.
Qed.

Lemma part_without_label lab (pre u post : jsstring) :
  has_label lab (pre ++ u ++ post) = false -> has_label lab u = false.
Proof.
  intros H. destruct (has_label lab u) eqn:E; [|reflexivity].
  rewrite has_label_app_r in H; [discriminate|].
  now apply has_label_app_l.
Qed.

Lemma trim_part s : exists pre post, s = pre ++ trim s ++ post.
Proof.
  unfold trim, trimEnd, trimStart.
  set (A := dropWhile is_space s).
  exists (takeWhile is_space s), (rev (takeWhile is_space (rev A))).
  rewrite <- rev_app_distr, takeWhile_dropWhile, rev_involutive.
  symmetry. apply takeWhile_dropWhile.
Qed.

Lemma trim_without_label lab s :
  has_label lab s = false -> has_label lab (trim s) = false.
Proof.
  intros H. destruct (trim_part s) as [pre [post E]].
  rewrite E in H. now apply part_without_label in H.
Qed.

Lemma extractSource_without_label lab s :
  has_label lab s = false -> has_label lab (extractSource s) = false.
Proof.
  intros H. unfold extractSource.
  destruct (search urlRegex 0 s) as [m|] eqn:E; [|exact H].
  apply url_search_some in E. destruct E as [pre [post [E _]]].
  rewrite E in H. now apply part_without_label in H.
Qed.

Lemma parse_loop_label_free : forall fuel pos rest acc l,
  Forall (fun a => has_label label_summary (title a) = false /\
                   has_label label_source (summary a) = false /\
                   has_label label_title (source a) = false) acc ->
  parse_loop fuel pos rest acc = Returned l ->
  Forall (fun a => has_label label_summary (title a) = false /\
                   has_label label_source (summary a) = false /\
                   has_label label_title (source a) = false) l.
Proof.
  induction fuel as [|fuel IH]; intros pos rest acc l Hacc; [discriminate|].
  destruct (search articleRegex pos rest) as [m|] eqn:E.
  - destruct (search_article_lazy _ _ _ E) as [t [s [r [Hc [Ht [Hs Hr]]]]]].
    rewrite (parse_loop_step _ _ _ _ _ (mkBlock 0 t 0 s 0 r) E Hc).
    apply IH. cbn [b_title b_summary b_source]. unfold push_article.
    destruct (_ && _); [|exact Hacc].
    apply Forall_app. split; [exact Hacc|]. constructor; [|constructor].
    simpl. split; [|split].
    + now apply trim_without_label.
    + now apply trim_without_label.
    + now apply extractSource_without_label, trim_without_label.
  - simpl. rewrite E. intros H. inversion H. now subst.
Qed.

End ParserMore.

(* ================================================================== *)
(** * Further properties of the deduplication and of the service *)
(* ================================================================== *)

Module ServiceMore.

Lemma withUri_uris l : map uri (withUri l) = filter truthy (map uri l).
Proof.
  unfold withUri. induction l as [|x l IH]; simpl; [reflexivity|].
  destruct (truthy (uri x)); simpl; now rewrite IH.
Qed.

Lemma dedupSources_uris l :
  map uri (dedupSources l) = first_seen (filter truthy (map uri l)).
Proof. unfold dedupSources. now rewrite uniqueSources_uris, withUri_uris. Qed.

Lemma dedupSources_uri_in l u :
  In u (map uri (dedupSources l)) <-> u <> [] /\ In u (map uri l).
Proof.
  rewrite dedupSources_uris, first_seen_in, filter_In, truthy_true. tauto.
Qed.

Lemma dedupSources_NoDup l : NoDup (map uri (dedupSources l)).
Proof. rewrite dedupSources_uris. apply first_seen_NoDup. Qed.

Lemma dedupSources_nonempty l :
  Forall (fun s => uri s <> []) (dedupSources l).
Proof.
  apply Forall_forall. intros s Hin.
  assert (H : In (uri s) (map uri (dedupSources l))) by now apply in_map.
  apply dedupSources_uri_in in H. tauto.
Qed.

Lemma dedupSources_from_input l s : In s (dedupSources l) -> In s l.
Proof.
  unfold dedupSources. intros Hin.
  apply uniqueSources_last in Hin. unfold last_with in Hin.
  apply find_some in Hin. destruct Hin as [Hin _].
  apply in_rev in Hin. unfold withUri in Hin.
  apply filter_In in Hin. tauto.
Qed.

Lemma first_seen_length l : (length (first_seen l) <= length l)%nat.
Proof.
  induction l as [|x l IH]; simpl; [lia|].
  assert (H := filter_length_le (fun y => negb (JsString.eqb y x))
                 (first_seen l)). lia.
Qed.

Lemma dedupSources_length l : (length (dedupSources l) <= length l)%nat.
Proof.
  rewrite <- (length_map uri (dedupSources l)), dedupSources_uris.
  assert (H1 := first_seen_length (filter truthy (map uri l))).
  assert (H2 := filter_length_le truthy (map uri l)).
  rewrite length_map in H2. lia.
Qed.

(** ** The final period *)

Lemma rmatch_final_period pos rest cs :
  rmatch (Seq (Char 46) EndOfInput) (MState pos rest cs) (fun y => Some y) =
  match rest with
  | [c] => if c =? 46 then Some (MState (S pos) [] cs) else None
  | _ => None
  end.
Proof.
  destruct rest as [|c [|d rest]]; simpl; try reflexivity;
    destruct (c =? 46); reflexivity.
Qed.

Lemma dropFinalPeriod_final s : dropFinalPeriod (s ++ [46]) = s.
Proof.
  unfold dropFinalPeriod. rewrite search_skip.
  - rewrite (search_here _ _ _ (MState (S (0 + length s)) [] [])).
    + simpl. rewrite firstn_app_exact. apply app_nil_r.
    + apply rmatch_final_period.
  - intros i Hi. rewrite rmatch_final_period.
    destruct (skipn i s) as [|c r] eqn:E.
    + apply (f_equal (@length N)) in E. rewrite length_skipn in E.
      simpl in E. lia.
    + simpl. destruct r; reflexivity.
Qed.

Lemma dropFinalPeriod_other s :
  (forall s', s <> s' ++ [46]) -> dropFinalPeriod s = s.
Proof.
  intros H. unfold dropFinalPeriod. rewrite search_none_intro; [reflexivity|].
  intros i Hi. rewrite rmatch_final_period.
  destruct (skipn i s) as [|c [|d r]] eqn:E; try reflexivity.
  destruct (c =? 46) eqn:Ec; [|reflexivity].
  apply N.eqb_eq in Ec. subst c. exfalso. apply (H (firstn i s)).
  now rewrite <- E, firstn_skipn.
Qed.

(** ** The requests of a call *)

Lemma requests_of_app evs evs' :
  requests_of (evs ++ evs') = requests_of evs ++ requests_of evs'.
Proof.
  induction evs as [|ev evs IH]; simpl; [reflexivity|].
  destruct ev; simpl; now rewrite IH.
Qed.

Lemma requests_of_translate ai keywords :
  requests_of (translate_events ai keywords) = [translateRequest keywords].
Proof.
  unfold translate_events. simpl. destruct (ai _) as [e|resp]; [reflexivity|].
  destruct (text resp); reflexivity.
Qed.

(** ** Grounding chunks *)

Lemma mapChunks_returns cs :
  ~ In ChunkNull cs -> exists l, mapChunks cs = Returned l.
Proof.
  induction cs as [|c cs IH]; intros H; [now exists []|].
  destruct IH as [l Hl]; [intros Hin; apply H; now right|].
  destruct c as [|[w|]]; [exfalso; apply H; now left| |];
    simpl; rewrite Hl; eauto.
Qed.

Lemma mapChunks_length cs l :
  mapChunks cs = Returned l -> length l = length cs /\ ~ In ChunkNull cs.
Proof.
  revert l. induction cs as [|c cs IH]; intros l; simpl.
  - intros H. inversion H. auto.
  - destruct c as [|[w|]]; simpl; try discriminate;
      destruct (mapChunks cs) as [l'| |]; try discriminate;
      intros H; inversion H; destruct (IH l' eq_refl) as [Hl Hn];
      (split; [simpl; congruence|intros [Hc|Hc]; [discriminate|tauto]]).
Qed.

Lemma mapChunks_thrown_null cs e :
  mapChunks cs = Thrown e -> In ChunkNull cs.
Proof.
  induction cs as [|c cs IH]; simpl; [discriminate|].
  destruct c as [|[w|]]; simpl; [now left| |];
    destruct (mapChunks cs); try discriminate;
    intros H; right; apply IH; congruence.
Qed.


Lemma mapChunks_origin cs l s :
  mapChunks cs = Returned l -> In s l ->
  exists c, In c cs /\ sourceOfChunk c = Returned s.
Proof.
  revert l. induction cs as [|c cs IH]; intros l; simpl.
  - intros H. inversion H. contradiction.
  - destruct (sourceOfChunk c) as [s0|e|] eqn:Ec; try discriminate.
    destruct (mapChunks cs) as [l'|e|]; try discriminate.
    intros H Hin. inversion H; subst l. destruct Hin as [->|Hin].
    + exists c. auto.
    + destruct (IH l' eq_refl Hin) as [c' [Hc' Hs]]. exists c'. auto.
Qed.

Lemma sourceOfChunk_uri c s :
  sourceOfChunk c = Returned s -> uri s <> [] ->
  exists w, c = Chunk (Some w) /\ web_uri w = Some (uri s).
Proof.
  destruct c as [|[w|]]; simpl; try discriminate.
  - intros H Hu. inversion H; subst s. simpl in *.
    exists w. split; [reflexivity|].
    destruct (web_uri w); [reflexivity|congruence].
  - intros H Hu. inversion H; subst s. simpl in Hu. congruence.
Qed.

End ServiceMore.

(* ================================================================== *)
(** * Properties of the page *)
(* ================================================================== *)

Module AppFacts.

Import ServiceMore.

(** ** What the page may rely on *)

Lemma fetch_outcome_contract ai today oneWeekAgo filters log :
  fetch_contract
    (fst (fetchDigitalEconomyArticles ai today oneWeekAgo filters log)).
Proof.
  rewrite fetch_run. cbv zeta.
  destruct (ai _) as [e|resp]; [now right|].
  destruct (parseArticleResponse (toString (text resp))) as [arts|e|] eqn:Ea.
  - destruct (mapChunks (chunksOf resp)) as [mapped|e|] eqn:Em.
    + left. eexists. split; [reflexivity|]. simpl.
      split; [now apply parse_articles_complete in Ea|].
      split; [apply dedupSources_nonempty|apply dedupSources_NoDup].
    + now right.
    + now apply mapChunks_not_diverged in Em.
  - now right.
  - destruct (parse_returns (toString (text resp))) as [l Hl]. congruence.
Qed.

(** ** The filter does not matter to what is rendered *)

Lemma same_view_refl s : same_view s s.
Proof. now repeat split. Qed.

Lemma same_view_change name value s :
  same_view s (App.handleFilterChange name value s).
Proof.
  unfold App.handleFilterChange.
  destruct (JsString.eqb name (js "subTopic")); now repeat split.
Qed.

Lemma same_view_update s s' u :
  same_view s s' -> same_view (App.apply_update s u) (App.apply_update s' u).
Proof.
  intros [H1 [H2 [H3 [H4 H5]]]]. destruct u; simpl; now repeat split.
Qed.

Lemma same_view_rendered s s' :
  same_view s s' -> rendered_ok s -> rendered_ok s'.
Proof.
  intros [H1 [H2 [H3 [H4 H5]]]] [Hn Hs He Hd Hi].
  unfold App.showEmptyNotice, App.showSources, App.showArticles,
    App.showError in *.
  rewrite H1, H2, H3, H4, H5 in *. now constructor.
Qed.

Lemma same_view_settles q : forall s s',
  same_view s s' -> settles s q -> settles s' q.
Proof.
  induction q as [|u q IH]; intros s s' Hv; simpl.
  - destruct Hv as [_ [_ [H3 _]]]. congruence.
  - intros [Hl [Hr Hq]]. split; [|split].
    + destruct Hv as [_ [_ [H3 _]]]. congruence.
    + eapply same_view_rendered; [|exact Hr]. now apply same_view_update.
    + eapply IH; [|exact Hq]. now apply same_view_update.
Qed.

Lemma same_view_waiting s s' :
  same_view s s' -> waiting_view s -> waiting_view s'.
Proof.
  intros [H1 [H2 [H3 [H4 H5]]]] [W1 [W2 [W3 [W4 W5]]]].
  unfold waiting_view. rewrite <- H1, <- H2, <- H3, <- H4, <- H5. auto.
Qed.

(** ** The updates of a resumed handler *)

Lemma presentable_nil : presentable [] [].
Proof. repeat split; constructor. Qed.

(** The five facts of [rendered_ok], each by computation once the fields
    of the state are known. *)
Ltac rendered :=
  constructor;
  unfold App.showEmptyNotice, App.showSources, App.showArticles,
    App.showError;
  simpl;
  repeat match goal with
         | H : _ = _ |- _ => rewrite H
         end;
  simpl;
  try solve [ reflexivity | discriminate | intros; discriminate
            | now left | assumption | apply presentable_nil
            | intros; reflexivity ].

Lemma waiting_rendered s : waiting_view s -> rendered_ok s.
Proof. intros [W1 [W2 [W3 [W4 W5]]]]. rendered. Qed.

Lemma settles_message s message :
  waiting_view s ->
  truthy message = true -> known_error (Some message) ->
  settles s [App.SetError (Some message); App.SetIsLoading false].
Proof.
  intros [W1 [W2 [W3 [W4 W5]]]] Hm Hk. simpl.
  split; [exact W1|]. split; [|split; [exact W1|split; [|reflexivity]]].
  - clear W2. rendered.
  - clear W1 W2. rendered.
Qed.

Lemma settles_result s arts srcs :
  waiting_view s -> presentable arts srcs -> arts <> [] ->
  settles s [App.SetArticles arts; App.SetGroundingSources srcs;
             App.SetIsLoading false].
Proof.
  intros [W1 [W2 [W3 [W4 W5]]]] Hp Ha.
  assert (Hlen : Nat.ltb 0 (length arts) = true)
    by (destruct arts; [congruence|reflexivity]).
  assert (Hz : Nat.eqb (length arts) 0 = false)
    by (destruct arts; [congruence|reflexivity]).
  simpl. split; [exact W1|]. split; [|split; [exact W1|split;
    [|split; [exact W1|split; [|reflexivity]]]]].
  - clear W4 Hz. rendered.
    destruct Hp as [Hc _]. split; [exact Hc|]. split; constructor.
  - clear W4 W5 Hz. rendered.
  - clear W1 W4 W5. rendered.
Qed.

Lemma afterFetch_settles other s o us :
  waiting_view s -> fetch_contract o -> App.afterFetch other o = Some us ->
  settles s us.
Proof.
  intros Hw [[r [-> Hp]] | ->]; simpl.
  - destruct r as [arts srcs]. simpl in Hp. intros H. inversion H; clear H.
    destruct arts as [|a arts]; simpl.
    + apply settles_message; [exact Hw|reflexivity|right; now left].
    + apply settles_result; [exact Hw|exact Hp|discriminate].
  - intros H. inversion H.
    apply settles_message; [exact Hw|reflexivity|right; now right].
Qed.

(** ** Every page that can be reached *)

Lemma initial_ok : page_ok (App.mkConfig App.initial [] None).
Proof.
  split; [|reflexivity]. rendered.
Qed.

Lemma click_waiting s : waiting_view (App.apply_updates s App.beforeFetch).
Proof. now repeat split. Qed.

Lemma step_ok other c c' : App.step other c c' -> page_ok c -> page_ok c'.
Proof.
  intros Hstep [Hr Hq]. destruct Hstep; simpl in *.
  - split.
    + eapply same_view_rendered; [apply same_view_change|exact Hr].
    + destruct w as [o|].
      * destruct Hq as [H1 [H2 H3]]. split; [exact H1|]. split; [|exact H3].
        eapply same_view_waiting; [apply same_view_change|exact H2].
      * eapply same_view_settles; [apply same_view_change|exact Hq].
  - split; [apply waiting_rendered, click_waiting|].
    split; [reflexivity|]. split; [apply click_waiting|].
    apply fetch_outcome_contract.
  - destruct Hq as [_ [Hw Hc]]. split; [exact Hr|].
    eapply afterFetch_settles; eauto.
  - destruct Hq as [_ [Hu Hq]]. split; assumption.
Qed.

Lemma reachable_ok other c : App.reachable other c -> page_ok c.
Proof.
  induction 1 as [|c c' _ IH Hstep]; [exact initial_ok|].
  eapply step_ok; eauto.
Qed.

Lemma page_ok_idle c :
  page_ok c ->
  (App.buttonDisabled (App.view c) = false <->
   App.queue c = [] /\ App.awaiting c = None).
Proof.
  intros [_ Hq]. unfold App.buttonDisabled.
  destruct c as [s q [o|]]; simpl in *.
  - destruct Hq as [_ [[W1 _] _]]. rewrite W1.
    split; [discriminate|]. intros [_ H]. discriminate.
  - destruct q as [|u q]; simpl in Hq.
    + rewrite Hq. tauto.
    + destruct Hq as [Hl _]. rewrite Hl.
      split; [discriminate|]. intros [H _]. discriminate.
Qed.

(** ** A session *)

Lemma typed_page_reachable : App.reachable no_other_errors typed_page.
Proof.
  eapply App.reach_step; [apply App.reach_initial|].
  apply App.step_change.
Qed.

Lemma clicked_page_reachable : App.reachable no_other_errors clicked_page.
Proof.
  eapply App.reach_step; [apply typed_page_reachable|].
  unfold clicked_page, typed_page. cbn [App.view].
  apply App.step_click. reflexivity.
Qed.

Lemma shown_page_reachable : App.reachable no_other_errors shown_page.
Proof.
  assert (Hs : App.step no_other_errors clicked_page
    (App.mkConfig (App.view clicked_page)
       [App.SetArticles [mkArticle (js "T") (js "S") (js "https://a.org/x")];
        App.SetGroundingSources [mkSource (js "https://a.org/x") []];
        App.SetIsLoading false] None)).
  { unfold clicked_page at 1.
    apply App.step_settle. vm_compute. reflexivity. }
  pose proof (App.reach_step _ _ _ clicked_page_reachable Hs) as H1.
  pose proof (App.reach_step _ _ _ H1 (App.step_update _ _ _ _)) as H2.
  pose proof (App.reach_step _ _ _ H2 (App.step_update _ _ _ _)) as H3.
  pose proof (App.reach_step _ _ _ H3 (App.step_update _ _ _ _)) as H4.
  exact H4.
Qed.

End AppFacts.

(* ================================================================== *)
(** * Further properties *)
(* ================================================================== *)

Import ParserMore ServiceMore AppFacts.

(** ** The parser and the URL extraction *)

(** X1: the three fields of a returned article neither begin nor end with
    white space: trimming them again changes nothing. *)
Theorem parse_fields_trimmed text l a :
  parseArticleResponse text = Returned l -> In a l ->
  trim (title a) = title a /\ trim (summary a) = summary a /\
  trim (source a) = source a.
Proof.
  intros H Hin. apply parse_loop_emitted in H; [|constructor].
  rewrite Forall_forall in H. destruct (H a Hin) as [m1 [m2 [m3 [-> _]]]].
  simpl. repeat split; apply trimmed_trim.
  - apply trim_trimmed.
  - apply trim_trimmed.
  - apply extractSource_trimmed, trim_trimmed.
Qed.

Lemma parse_fields_trimmed_witness :
  trim (title (mkArticle (js "T") (js "S") (js "https://example.com/paper?x=1")))
  = title (mkArticle (js "T") (js "S") (js "https://example.com/paper?x=1")) /\
  trim (summary (mkArticle (js "T") (js "S") (js "https://example.com/paper?x=1")))
  = summary (mkArticle (js "T") (js "S") (js "https://example.com/paper?x=1")) /\
  trim (source (mkArticle (js "T") (js "S") (js "https://example.com/paper?x=1")))
  = source (mkArticle (js "T") (js "S") (js "https://example.com/paper?x=1")).
Proof.
  apply (parse_fields_trimmed text_with_url
           [mkArticle (js "T") (js "S") (js "https://example.com/paper?x=1")]).
  - vm_compute. reflexivity.
  - left. reflexivity.
Defined.

(** X2: the parser returns at most one article for each place of the
    text where a title label stands with its colon. *)
Theorem parse_at_most_one_per_title text l :
  parseArticleResponse text = Returned l ->
  (length l <= count_label label_title text)%nat.
Proof. intros H. apply parse_loop_count in H. simpl in H. exact H. Qed.

Lemma parse_at_most_one_per_title_witness :
  (length [mkArticle (js "A") (js "B标题:C摘要:D") (js "E")]
   <= count_label label_title text_missing_source)%nat.
Proof.
  apply (parse_at_most_one_per_title text_missing_source).
  vm_compute. reflexivity.
Defined.

(** X3: a text in which the summary label or the source label never
    stands with a colon yields no article, whatever else it holds. *)
Theorem parse_needs_every_label text :
  has_label label_summary text = false \/
  has_label label_source text = false ->
  parseArticleResponse text = Returned [].
Proof.
  intros H. unfold parseArticleResponse. simpl.
  destruct (search articleRegex 0 text) as [m|] eqn:E; [|reflexivity].
  apply search_needs_labels in E. destruct E as [_ [E1 E2]].
  destruct H as [H|H]; congruence.
Qed.

Lemma parse_needs_every_label_witness :
  parseArticleResponse (js "标题：T
摘要 S
来源：https://a.org/x") = Returned [].
Proof.
  apply parse_needs_every_label. left. vm_compute. reflexivity.
Defined.

(** X4: URL extraction is idempotent: extracting from what it returned
    returns the same. *)
Theorem extractSource_idempotent s :
  extractSource (extractSource s) = extractSource s.
Proof.
  unfold extractSource at 2 3.
  destruct (search urlRegex 0 s) as [m|] eqn:E.
  - apply url_search_some in E. destruct E as [_ [_ [_ [Hu _]]]].
    now apply extractSource_url.
  - unfold extractSource. now rewrite E.
Qed.

(** ** The deduplication step *)

(** X5: deduplication is idempotent on every input: a second pass over
    its result changes nothing. *)
Theorem dedup_idempotent (l : list GroundingSource) :
  dedupSources (dedupSources l) = dedupSources l.
Proof.
  unfold dedupSources at 1.
  rewrite withUri_id by apply dedupSources_nonempty.
  apply uniqueSources_NoDup_id, dedupSources_NoDup.
Qed.

(** X6: deduplication loses no uri and invents nothing: a uri occurs in
    the result exactly when it is not empty and occurs in the input,
    every entry of the result is an entry of the input, and the result is
    no longer than the input. *)
Theorem dedup_keeps_every_uri (l : list GroundingSource) :
  (forall u, In u (map uri (dedupSources l)) <->
             u <> [] /\ In u (map uri l)) /\
  (forall s, In s (dedupSources l) -> In s l) /\
  (length (dedupSources l) <= length l)%nat.
Proof.
  split; [intros u; apply dedupSources_uri_in|].
  split; [apply dedupSources_from_input|apply dedupSources_length].
Qed.

(** ** [translateKeywords] *)

(** X7: the clean-up of the translation removes exactly one final period:
    a text that ends in a period loses that period only, and any other
    text is left as it is. *)
Theorem final_period_removed_once :
  (forall s, dropFinalPeriod (s ++ [46]) = s) /\
  (forall s, (forall s', s <> s' ++ [46]) -> dropFinalPeriod s = s) /\
  (forall s, dropFinalPeriod (s ++ [46; 46]) = s ++ [46]).
Proof.
  split; [exact dropFinalPeriod_final|].
  split; [exact dropFinalPeriod_other|].
  intros s. change (s ++ [46; 46]) with (s ++ [46] ++ [46]).
  rewrite app_assoc. apply dropFinalPeriod_final.
Qed.

(** ** [fetchDigitalEconomyArticles] *)

(** X8: a call sends the translation request only when [subTopic] is not
    empty, and it always sends the main query, once and last, whatever
    the translation did. *)
Theorem fetch_requests ai today oneWeekAgo filters log :
  requests_of
    (snd (fetchDigitalEconomyArticles ai today oneWeekAgo filters log)) =
  requests_of log
  ++ (if truthy (subTopic filters)
      then [translateRequest (subTopic filters)] else [])
  ++ [queryRequest (promptFor ai today oneWeekAgo filters)].
Proof.
  destruct (fetch_events ai today oneWeekAgo filters log) as [after [E Ha]].
  rewrite E, !requests_of_app. f_equal. unfold query_events.
  rewrite requests_of_app. simpl.
  assert (Hafter : requests_of after = [])
    by (destruct Ha as [->|[e ->]]; reflexivity).
  rewrite Hafter, app_nil_r. f_equal.
  destruct (truthy (subTopic filters)); [|reflexivity].
  apply requests_of_translate.
Qed.

(** X9: a call fails exactly when the main query is rejected or one of
    the grounding chunks of its answer is null; a failed translation, an
    answer without text and an answer without grounding data never make
    it fail. *)
Theorem fetch_fails_iff ai today oneWeekAgo filters log :
  fst (fetchDigitalEconomyArticles ai today oneWeekAgo filters log) =
    Thrown (Error fetchFailedMessage) <->
  (exists e,
     ai (queryRequest (promptFor ai today oneWeekAgo filters)) = inl e) \/
  (exists resp,
     ai (queryRequest (promptFor ai today oneWeekAgo filters)) = inr resp /\
     In ChunkNull (chunksOf resp)).
Proof.
  rewrite fetch_run. cbv zeta.
  destruct (ai (queryRequest (promptFor ai today oneWeekAgo filters)))
    as [e|resp].
  - simpl. split; [eauto|reflexivity].
  - destruct (parse_returns (toString (text resp))) as [arts ->].
    destruct (mapChunks (chunksOf resp)) as [mapped|e|] eqn:Em; simpl.
    + apply mapChunks_length in Em. destruct Em as [_ Hn].
      split; [discriminate|].
      intros [[e H]|[resp' [H Hin]]]; [discriminate|].
      inversion H; subst resp'. contradiction.
    + split; [|reflexivity]. intros _. right. exists resp.
      split; [reflexivity|].
      now apply mapChunks_thrown_null in Em.
    + now apply mapChunks_not_diverged in Em.
Qed.

(** X10: when the answer of the main query carries no grounding data (no
    candidates, an empty list of candidates, a first candidate without
    metadata, or metadata without chunks), the call returns the parsed
    articles with an empty list of sources. *)
Theorem fetch_without_grounding ai today oneWeekAgo filters log resp :
  ai (queryRequest (promptFor ai today oneWeekAgo filters)) = inr resp ->
  candidates resp = None \/ candidates resp = Some [] \/
  (exists c cs,
     candidates resp = Some (c :: cs) /\
     (groundingMetadata c = None \/
      groundingMetadata c = Some (mkMetadata None) \/
      groundingMetadata c = Some (mkMetadata (Some [])))) ->
  exists arts,
    parseArticleResponse (toString (text resp)) = Returned arts /\
    fst (fetchDigitalEconomyArticles ai today oneWeekAgo filters log) =
    Returned (mkResult arts []).
Proof.
  intros Hq Hc.
  assert (E : chunksOf resp = []).
  { unfold chunksOf.
    destruct Hc as [->|[->|[c [cs [-> [->|[->| ->]]]]]]]; reflexivity. }
  destruct (parse_returns (toString (text resp))) as [arts Ha].
  exists arts. split; [exact Ha|].
  rewrite fetch_run. cbv zeta. now rewrite Hq, Ha, E.
Qed.

Lemma fetch_without_grounding_witness :
  exists arts,
    parseArticleResponse (toString (text (mkResponse None None)))
      = Returned arts /\
    fst (fetchDigitalEconomyArticles ai_bare today_sample week_ago_sample
           (mkFilters []) []) =
    Returned (mkResult arts []).
Proof.
  apply (fetch_without_grounding ai_bare today_sample week_ago_sample
           (mkFilters []) [] (mkResponse None None)).
  - reflexivity.
  - left. reflexivity.
Defined.

(** X11: when the answer of the main query has no text, the parser is run
    on the name of [undefined] and finds nothing: the call returns an
    empty list of articles together with the deduplicated sources. *)
Theorem fetch_without_text ai today oneWeekAgo filters log resp mapped :
  ai (queryRequest (promptFor ai today oneWeekAgo filters)) = inr resp ->
  text resp = None ->
  mapChunks (chunksOf resp) = Returned mapped ->
  fst (fetchDigitalEconomyArticles ai today oneWeekAgo filters log) =
  Returned (mkResult [] (dedupSources mapped)).
Proof.
  intros Hq Ht Hm. rewrite fetch_run. cbv zeta. rewrite Hq, Ht, Hm.
  assert (E : parseArticleResponse (toString None) = Returned [])
    by (vm_compute; reflexivity).
  now rewrite E.
Qed.

Lemma fetch_without_text_witness :
  fst (fetchDigitalEconomyArticles ai_bare today_sample week_ago_sample
         (mkFilters []) []) =
  Returned (mkResult [] (dedupSources [])).
Proof.
  apply (fetch_without_text ai_bare today_sample week_ago_sample
           (mkFilters []) [] (mkResponse None None) []); reflexivity.
Defined.

(** X12: every result a call returns can be rendered as it is: each
    article has its three fields, no source has an empty uri, no uri
    occurs twice, and the uri of each source is the uri of a grounding
    chunk of the answer. *)
Theorem fetch_result_presentable ai today oneWeekAgo filters log r :
  fst (fetchDigitalEconomyArticles ai today oneWeekAgo filters log)
    = Returned r ->
  presentable (articles r) (sources r) /\
  exists resp,
    ai (queryRequest (promptFor ai today oneWeekAgo filters)) = inr resp /\
    (length (sources r) <= length (chunksOf resp))%nat /\
    forall s, In s (sources r) ->
      exists w, In (Chunk (Some w)) (chunksOf resp) /\
                web_uri w = Some (uri s).
Proof.
  rewrite fetch_run. cbv zeta.
  destruct (ai (queryRequest (promptFor ai today oneWeekAgo filters)))
    as [e|resp]; [discriminate|].
  destruct (parseArticleResponse (toString (text resp))) as [arts|e|] eqn:Ea;
    try discriminate.
  destruct (mapChunks (chunksOf resp)) as [mapped|e|] eqn:Em;
    try discriminate.
  simpl. intros H. inversion H; subst r; clear H. simpl.
  split.
  - split; [now apply parse_articles_complete in Ea|].
    split; [apply dedupSources_nonempty|apply dedupSources_NoDup].
  - exists resp. split; [reflexivity|]. split.
    + assert (H1 := dedupSources_length mapped).
      apply mapChunks_length in Em. destruct Em as [Hl _]. lia.
    + intros s Hin.
      assert (Hu : uri s <> []).
      { assert (H := dedupSources_nonempty mapped).
        rewrite Forall_forall in H. now apply H. }
      apply dedupSources_from_input in Hin.
      destruct (mapChunks_origin _ _ _ Em Hin) as [c [Hc Hs]].
      destruct (sourceOfChunk_uri _ _ Hs Hu) as [w [-> Hw]].
      exists w. auto.
Qed.

Lemma fetch_result_presentable_witness :
  presentable
    (articles (mkResult [mkArticle (js "T") (js "S") (js "https://a.org/x")]
                        [mkSource (js "https://a.org/x") []]))
    (sources (mkResult [mkArticle (js "T") (js "S") (js "https://a.org/x")]
                       [mkSource (js "https://a.org/x") []])) /\
  exists resp,
    ai_translation_down
      (queryRequest (promptFor ai_translation_down today_sample
                       week_ago_sample (mkFilters (js "AI")))) = inr resp /\
    (length (sources (mkResult
                        [mkArticle (js "T") (js "S") (js "https://a.org/x")]
                        [mkSource (js "https://a.org/x") []]))
     <= length (chunksOf resp))%nat /\
    forall s,
      In s (sources (mkResult
                       [mkArticle (js "T") (js "S") (js "https://a.org/x")]
                       [mkSource (js "https://a.org/x") []])) ->
      exists w, In (Chunk (Some w)) (chunksOf resp) /\
                web_uri w = Some (uri s).
Proof.
  apply (fetch_result_presentable ai_translation_down today_sample
           week_ago_sample (mkFilters (js "AI")) []).
  vm_compute. reflexivity.
Defined.

(** ** The page *)

(** X13: the notice that no article was found is never rendered: after a
    search that found nothing the alert is shown instead, and a failed
    call always leaves a message that is not empty. *)
Theorem empty_notice_never_shown other c :
  App.reachable other c -> App.showEmptyNotice (App.view c) = false.
Proof. intros H. apply reachable_ok in H. apply H. Qed.

Lemma empty_notice_never_shown_witness :
  App.showEmptyNotice (App.view shown_page) = false.
Proof.
  exact (empty_notice_never_shown no_other_errors shown_page
           shown_page_reachable).
Defined.

(** X14: the list of sources is rendered only together with articles:
    the sources of a result without articles are dropped, and a new
    search clears both at once. *)
Theorem sources_only_with_articles other c :
  App.reachable other c ->
  App.showSources (App.view c) = true -> App.showArticles (App.view c) = true.
Proof. intros H. apply reachable_ok in H. apply H. Qed.

Lemma sources_only_with_articles_witness :
  App.showArticles (App.view shown_page) = true.
Proof.
  exact (sources_only_with_articles no_other_errors shown_page
           shown_page_reachable eq_refl).
Defined.

(** X15: the alert holds no message, the message for an empty result or
    the message of [fetchDigitalEconomyArticles]; the text kept for
    values that are not errors is never shown, whatever else can be
    thrown. *)
Theorem alert_is_one_of_two other c :
  App.reachable other c ->
  (App.error (App.view c) = None \/
   App.error (App.view c) = Some App.noArticlesMessage \/
   App.error (App.view c) = Some fetchFailedMessage) /\
  App.error (App.view c) <> Some App.unknownErrorMessage.
Proof.
  intros H. apply reachable_ok in H. destruct H as [[_ _ He _ _] _].
  split; [exact He|].
  destruct He as [-> |[-> | ->]]; [discriminate| |];
    vm_compute; discriminate.
Qed.

Lemma alert_is_one_of_two_witness :
  (App.error (App.view clicked_page) = None \/
   App.error (App.view clicked_page) = Some App.noArticlesMessage \/
   App.error (App.view clicked_page) = Some fetchFailedMessage) /\
  App.error (App.view clicked_page) <> Some App.unknownErrorMessage.
Proof.
  exact (alert_is_one_of_two no_other_errors clicked_page
           clicked_page_reachable).
Defined.

(** X16: once a search has been made and nothing is loading, the page
    shows either the alert or the grid of articles, never both and never
    neither. *)
Theorem idle_page_shows_one_panel other c :
  App.reachable other c ->
  App.buttonDisabled (App.view c) = false ->
  App.hasSearched (App.view c) = true ->
  App.showError (App.view c) = negb (App.showArticles (App.view c)).
Proof. intros H. apply reachable_ok in H. apply H. Qed.

Lemma idle_page_shows_one_panel_witness :
  App.showError (App.view shown_page)
  = negb (App.showArticles (App.view shown_page)).
Proof.
  exact (idle_page_shows_one_panel no_other_errors shown_page
           shown_page_reachable eq_refl eq_refl).
Defined.

(** X17: what the page holds can be rendered as it is: every article
    card has a title, a summary and a link target, every source link has
    a target and a text that is not empty, and no source is listed
    twice. *)
Theorem page_data_presentable other c :
  App.reachable other c ->
  Forall complete (App.articles (App.view c)) /\
  NoDup (map uri (App.groundingSources (App.view c))) /\
  Forall (fun s => uri s <> [] /\ App.linkText s <> [])
         (App.groundingSources (App.view c)).
Proof.
  intros H. apply reachable_ok in H.
  destruct H as [[_ _ _ [Hc [Hu Hn]] _] _].
  split; [exact Hc|]. split; [exact Hn|].
  eapply Forall_impl; [|exact Hu]. intros s Hs. split; [exact Hs|].
  unfold App.linkText.
  destruct (truthy (Grounding.title s)) eqn:E; [|exact Hs].
  now apply truthy_true.
Qed.

Lemma page_data_presentable_witness :
  Forall complete (App.articles (App.view shown_page)) /\
  NoDup (map uri (App.groundingSources (App.view shown_page))) /\
  Forall (fun s => uri s <> [] /\ App.linkText s <> [])
         (App.groundingSources (App.view shown_page)).
Proof.
  exact (page_data_presentable no_other_errors shown_page
           shown_page_reachable).
Defined.

(** X18: the search button is disabled exactly while a click is being
    handled: from the click until the last update of the handler. *)
Theorem button_disabled_while_handling other c :
  App.reachable other c ->
  (App.buttonDisabled (App.view c) = false <->
   App.queue c = [] /\ App.awaiting c = None).
Proof. intros H. apply reachable_ok in H. now apply page_ok_idle. Qed.

Lemma button_disabled_while_handling_witness :
  App.buttonDisabled (App.view clicked_page) = false <->
  App.queue clicked_page = [] /\ App.awaiting clicked_page = None.
Proof.
  exact (button_disabled_while_handling no_other_errors clicked_page
           clicked_page_reachable).
Defined.

(** X19: however the awaited call settles, with a result or with any
    thrown value, the handler ends with the loading flag cleared, and it
    touches neither the filter nor the search flag. *)
Theorem loading_cleared_after_settling other s o us :
  App.afterFetch other o = Some us ->
  App.isLoading (App.apply_updates s us) = false /\
  App.filters (App.apply_updates s us) = App.filters s /\
  App.hasSearched (App.apply_updates s us) = App.hasSearched s.
Proof.
  destruct o as [[arts srcs]|e|]; simpl; [| |discriminate];
    intros H; inversion H; clear H; [|now repeat split].
  destruct (Nat.eqb (length arts) 0); now repeat split.
Qed.

Lemma loading_cleared_after_settling_witness :
  App.isLoading
    (App.apply_updates (App.view clicked_page)
       [App.SetError (Some (App.errorText no_other_errors TypeError));
        App.SetIsLoading false]) = false /\
  App.filters
    (App.apply_updates (App.view clicked_page)
       [App.SetError (Some (App.errorText no_other_errors TypeError));
        App.SetIsLoading false]) = App.filters (App.view clicked_page) /\
  App.hasSearched
    (App.apply_updates (App.view clicked_page)
       [App.SetError (Some (App.errorText no_other_errors TypeError));
        App.SetIsLoading false]) = App.hasSearched (App.view clicked_page).
Proof.
  exact (loading_cleared_after_settling no_other_errors
           (App.view clicked_page) (Thrown TypeError) _ eq_refl).
Defined.

(** ** The lazy groups of the article pattern *)

(** X20: each lazy group stops at the first label that can end it, so no
    returned title holds a summary label with a colon, no returned
    summary a source label, and no returned source a title label. *)
Theorem parse_fields_hold_no_label text l a :
  parseArticleResponse text = Returned l -> In a l ->
  has_label label_summary (title a) = false /\
  has_label label_source (summary a) = false /\
  has_label label_title (source a) = false.
Proof.
  intros H Hin. apply parse_loop_label_free in H; [|constructor].
  rewrite Forall_forall in H. now apply H.
Qed.

Lemma parse_fields_hold_no_label_witness :
  has_label label_summary
    (title (mkArticle (js "A") (js "B标题:C摘要:D") (js "E"))) = false /\
  has_label label_source
    (summary (mkArticle (js "A") (js "B标题:C摘要:D") (js "E"))) = false /\
  has_label label_title
    (source (mkArticle (js "A") (js "B标题:C摘要:D") (js "E"))) = false.
Proof.
  apply (parse_fields_hold_no_label text_missing_source
           [mkArticle (js "A") (js "B标题:C摘要:D") (js "E")]).
  - vm_compute. reflexivity.
  - left. reflexivity.
Defined.
